(** * Dictionary.cpp: an anagram dictionary on a semi-resizable hash table

    A shallow embedding of [DictionaryImpl] (constructor, [hash],
    [tryRehash], [insert], [lookup]), of the helper [removeNonLetters] and
    of the delegating wrapper [Dictionary], followed by the properties of
    the table that the specification states. A second embedding keeps the
    pointers of the code: the bucket array and the chains live in a free
    store, with the [new] and [delete] of the constructors, of
    [tryRehash], of [insert] and of the destructors; it is proved to
    implement the first one and to release what it allocates.

    Conventions of the embedding:
    - [std::string] is a list of characters ([list ascii]);
    - [unsigned int] members are numbers of type [N], every operation that
      can leave the 32-bit range is reduced with [uint32];
    - [list<string>** m_words] is a list of optional chains: [None] is the
      null pointer, [Some chain] an allocated [list<string>];
    - undefined behaviour of the C++ code (a remainder by zero in [hash],
      an index outside the bucket array) is the failure [None] of the
      option monad; allocation never fails;
    - [std::hash<string>] is implementation defined: it is the section
      variable [strhash], and every theorem holds for every such function;
    - [isalpha] and [tolower] are those of the "C" locale, which is in
      force since the program never calls [setlocale];
    - the load factor test is computed in IEEE binary32, rounding to
      nearest even, as a compiler that evaluates [float] expressions in
      their own format does;
    - the callback of [lookup] is a function on a world outside the
      table; the list of its arguments, in call order, is [visited];
    - in the free store every kind of object has its own addresses;
      [new] returns an address that is not in use; [delete] of a pointer
      to no live object, and every access through such a pointer, is
      undefined. *)

From Stdlib Require Import ZArith NArith Ascii String List Permutation Sorted.
From Stdlib Require Import Floats.SpecFloat.
From stdpp Require Import base option list gmap.

Import ListNotations.
#[local] Open Scope N_scope.

(** ** Strings *)

(** A [std::string] value. *)
Abbreviation str := (list ascii).

(** String literals. *)
Definition lit (s : String.string) : str := list_ascii_of_string s.

#[global] Instance ascii_eq_decision : EqDecision ascii := ascii_dec.

(** [isalpha] in the "C" locale: the 52 unaccented Latin letters. *)
Definition isalpha (c : ascii) : bool :=
  let n := N_of_ascii c in
  ((65 <=? n) && (n <=? 90)) || ((97 <=? n) && (n <=? 122)).

(** [tolower] in the "C" locale. *)
Definition tolower (c : ascii) : ascii :=
  let n := N_of_ascii c in
  if (65 <=? n) && (n <=? 90) then ascii_of_N (n + 32) else c.

(** [removeNonLetters(s)]: the two-iterator compaction loop keeps the
    alphabetic characters, lowercased, in their order, and erases the
    rest. *)
Fixpoint removeNonLetters (s : str) : str :=
  match s with
  | [] => []
  | from :: rest =>
      if isalpha from then tolower from :: removeNonLetters rest
      else removeNonLetters rest
  end.

(** [operator<] on characters, by code. *)
Definition char_le (a b : ascii) : bool := N_of_ascii a <=? N_of_ascii b.

Fixpoint sorted_insert (c : ascii) (s : str) : str :=
  match s with
  | [] => [c]
  | d :: rest => if char_le c d then c :: s else d :: sorted_insert c rest
  end.

(** [std::sort(s.begin(), s.end())]: the characters in ascending order.
    Equal characters are indistinguishable, so the result does not depend
    on the sorting algorithm. The program only sorts strings that
    [removeNonLetters] has produced, on whose characters the signed and
    the unsigned order of [char] agree. *)
Definition std_sort (s : str) : str := foldr sorted_insert [] s.

(** The canonical key of a word or query: letters only, lowercased,
    sorted. *)
Definition canonical (s : str) : str := std_sort (removeNonLetters s).

(** ** Machine arithmetic *)

(** Reduction to [unsigned int]. *)
Definition uint32 (n : N) : N := n mod 2 ^ 32.

(** [INT_MAX]. *)
Definition INT_MAX : Z := (2 ^ 31 - 1)%Z.

(** IEEE binary32: 24 bits of precision, exponents below 128. *)
Definition prec : Z := 24.
Definition emax : Z := 128.

(** [static_cast<float>(n)], and the implicit conversion of an
    [unsigned int] operand to [float]: rounding to nearest, ties to
    even. *)
Definition float_of_uint (n : N) : spec_float :=
  binary_normalize prec emax (Z.of_N n) 0 false.

(** The literal [0.7f]: the binary32 number nearest to 7/10, with bit
    pattern 0x3F333333, that is 11744051 * 2^-24. *)
Definition f0_7 : spec_float := S754_finite false 11744051 (-24).

(** [m_N / static_cast<float>(m_B) > 0.7f]. *)
Definition load_factor_exceeded (n b : N) : bool :=
  SFltb f0_7 (SFdiv prec emax (float_of_uint n) (float_of_uint b)).

(** ** The table *)

(** The bucket array: [m_words[i]] is a null pointer or a chain. *)
Abbreviation buckets := (list (option (list str))).

Record DictionaryImpl : Type := mkImpl {
  m_maxB : N;
  m_B : N;
  m_N : N;
  m_words : buckets
}.

(** The callbacks of [lookup] act on a world [W] outside the table; a null
    function pointer is [None]. *)
Definition callback_t (W : Type) : Type := option (str -> W -> W).

Section Table.

(** [std::hash<string>()]. *)
Variable strhash : str -> N.

(** [DictionaryImpl::DictionaryImpl(int max_buckets)]. *)
Definition DictionaryImpl_new (max_buckets : Z) : DictionaryImpl :=
  let maxB := Z.to_N (max_buckets mod 2 ^ 32) in
  let B := if 10 <? maxB then 10 else maxB in
  {| m_maxB := maxB; m_B := B; m_N := 0;
     m_words := replicate (N.to_nat B) None |}.

(** [hash(sortedkey)] for a table of [B] buckets; the remainder by zero is
    undefined. *)
Definition hash (B : N) (sortedkey : str) : option N :=
  if B =? 0 then None else Some (uint32 (strhash sortedkey mod B)).

(** [if (!arr[bucket]) arr[bucket] = new list<string>;
     arr[bucket]->push_back(word);] *)
Definition push_back_at (arr : buckets) (bucket : N) (word : str)
  : option buckets :=
  slot ← arr !! N.to_nat bucket;
  Some (<[N.to_nat bucket := Some (default [] slot ++ [word])]> arr).

(** The body of the inner transfer loop of [tryRehash]. *)
Definition transfer_word (B : N) (newArr : buckets) (it : str)
  : option buckets :=
  bucket ← hash B (std_sort it);
  push_back_at newArr bucket it.

(** The inner loop: one chain, front to back. *)
Fixpoint transfer_chain (B : N) (chain : list str) (newArr : buckets)
  : option buckets :=
  match chain with
  | [] => Some newArr
  | it :: rest =>
      newArr' ← transfer_word B newArr it;
      transfer_chain B rest newArr'
  end.

(** The outer loop over the old array, in index order. *)
Fixpoint transfer (B : N) (old : buckets) (newArr : buckets)
  : option buckets :=
  match old with
  | [] => Some newArr
  | slot :: rest =>
      newArr' ← match slot with
                | Some chain => transfer_chain B chain newArr
                | None => Some newArr
                end;
      transfer B rest newArr'
  end.

(** [DictionaryImpl::tryRehash()]: the outer loop runs over the first
    [oldSize] entries of the old array, which has [oldSize] entries. *)
Definition tryRehash (t : DictionaryImpl) : option DictionaryImpl :=
  if (m_B t <? m_maxB t) && load_factor_exceeded (m_N t) (m_B t) then
    let oldSize := m_B t in
    let newB :=
      if uint32 (2 * m_B t) <? m_maxB t then uint32 (2 * m_B t)
      else m_maxB t in
    newArr ← transfer newB (take (N.to_nat oldSize) (m_words t))
               (replicate (N.to_nat newB) None);
    Some {| m_maxB := m_maxB t; m_B := newB; m_N := m_N t;
            m_words := newArr |}
  else Some t.

(** [m_N++], the first statement of [insert]. *)
Definition increment_N (t : DictionaryImpl) : DictionaryImpl :=
  {| m_maxB := m_maxB t; m_B := m_B t;
     m_N := uint32 (m_N t + 1); m_words := m_words t |}.

(** The storage step of [insert], after the call of [tryRehash]:
    [removeNonLetters(word)], then the push of the stripped word into the
    bucket of its sorted form. *)
Definition store (t : DictionaryImpl) (word : str) : option DictionaryImpl :=
  let word := removeNonLetters word in
  if decide (word = []) then Some t
  else
    let temp := std_sort word in
    bucket ← hash (m_B t) temp;
    arr ← push_back_at (m_words t) bucket word;
    Some {| m_maxB := m_maxB t; m_B := m_B t; m_N := m_N t;
            m_words := arr |}.

(** [DictionaryImpl::insert(string word)]:
    [m_N++; tryRehash();] and the storage step. *)
Definition insert (t : DictionaryImpl) (word : str) : option DictionaryImpl :=
  t2 ← tryRehash (increment_N t);
  store t2 word.

(** The loop of [lookup] over one chain. *)
Definition visit_chain {W : Type} (callback : str -> W -> W)
    (letters : str) (chain : list str) (world : W) : W :=
  foldl (fun wd it =>
           if decide (std_sort it = letters) then callback it wd else wd)
        world chain.

(** [DictionaryImpl::lookup(string letters, void callback(string)) const].
    The result is the table after the call together with the world the
    callback has acted on. *)
Definition lookup {W : Type} (t : DictionaryImpl) (letters : str)
    (callback : callback_t W) (world : W) : option (DictionaryImpl * W) :=
  match callback with
  | None => Some (t, world)
  | Some cb =>
      let letters := removeNonLetters letters in
      if decide (letters = []) then Some (t, world)
      else
        let letters := std_sort letters in
        bucket ← hash (m_B t) letters;
        slot ← m_words t !! N.to_nat bucket;
        match slot with
        | None => Some (t, world)
        | Some chain => Some (t, visit_chain cb letters chain world)
        end
  end.

(** The wrapper class: [Dictionary] owns one [DictionaryImpl]. *)
Record Dictionary : Type := mkDict { m_impl : DictionaryImpl }.

Definition Dictionary_new (maxBuckets : Z) : Dictionary :=
  {| m_impl := DictionaryImpl_new maxBuckets |}.

Definition Dictionary_insert (d : Dictionary) (word : str)
  : option Dictionary :=
  impl ← insert (m_impl d) word; Some {| m_impl := impl |}.

Definition Dictionary_lookup {W : Type} (d : Dictionary) (letters : str)
    (callback : callback_t W) (world : W) : option (Dictionary * W) :=
  r ← lookup (m_impl d) letters callback world;
  Some ({| m_impl := r.1 |}, r.2).

End Table.

(** The exact comparison that the load factor test stands for:
    [n / b > 7 / 10]. *)
Definition load_above_seven_tenths (n b : N) : bool := 7 * b <? 10 * n.

(** The bucket counts of a table that can still grow, up to the largest
    one for which the binary32 test is exact: 10 doubled up to 22
    times. *)
Definition bucket_counts : list N :=
  [10; 20; 40; 80; 160; 320; 640; 1280; 2560; 5120; 10240; 20480; 40960;
   81920; 163840; 327680; 655360; 1310720; 2621440; 5242880; 10485760;
   20971520; 41943040].

(** ** Derived notions used by the statements *)

(** The chain of bucket [i]: empty for a null pointer and outside the
    array. *)
Definition chain_at (arr : buckets) (i : N) : list str :=
  match arr !! N.to_nat i with
  | Some (Some chain) => chain
  | _ => []
  end.

(** All the stored words, bucket after bucket. *)
Definition all_words (arr : buckets) : list str :=
  mjoin (default [] <$> arr).

(** The words of [l] whose sorted form is the key [k], in the order of
    [l]. *)
Definition matching (k : str) (l : list str) : list str :=
  filter (λ w, std_sort w = k) l.

(** The words of [ws] that are anagrams of the query [q]: those with the
    canonical key of [q], in the order of [ws]. *)
Definition anagrams (q : str) (ws : list str) : list str :=
  filter (λ w, canonical w = canonical q) ws.

(** The growth schedule: the bucket count is one of [bucket_counts], the
    load is at most 7/10 and, after the first growth, more than half of
    that. *)
Definition on_schedule (t : DictionaryImpl) : Prop :=
  m_B t ∈ bucket_counts /\ 10 * m_N t <= 7 * m_B t /\
  (m_B t = 10 \/ 7 * m_B t < 20 * m_N t).

(** A table that can still grow is on the schedule. *)
Definition load_bounded (t : DictionaryImpl) : Prop :=
  m_B t < m_maxB t -> on_schedule t.

(** What the storage step adds to the table: the letters-only form of the
    word, unless it is empty. *)
Definition stored_form (word : str) : list str :=
  if decide (removeNonLetters word = []) then [] else [removeNonLetters word].

(** A callback that records its arguments, in call order. *)
Definition record_visit : str -> list str -> list str :=
  λ word seen, seen ++ [word].

Section Specification.

Variable strhash : str -> N.

(** The index [hash] returns for a table of [B] buckets. *)
Definition bucket_of (B : N) (key : str) : N := uint32 (strhash key mod B).

(** The words [lookup] passes to its callback, in call order. *)
Definition visited (t : DictionaryImpl) (letters : str) : option (list str) :=
  snd <$> lookup strhash t letters (Some record_visit) [].

(** The words [lookup] reports for the query [q]: nothing for a query
    without letters, else the words of the bucket of the query key whose
    sorted form is that key, in chain order. *)
Definition answers (t : DictionaryImpl) (q : str) : list str :=
  if decide (removeNonLetters q = []) then []
  else matching (canonical q)
         (chain_at (m_words t) (bucket_of (m_B t) (canonical q))).

(** The growth condition of [tryRehash]. *)
Definition grows (t : DictionaryImpl) : bool :=
  (m_B t <? m_maxB t) && load_factor_exceeded (m_N t) (m_B t).

(** A sequence of [insert] calls. *)
Fixpoint insert_all (t : DictionaryImpl) (ws : list str)
  : option DictionaryImpl :=
  match ws with
  | [] => Some t
  | w :: rest => t' ← insert strhash t w; insert_all t' rest
  end.

(** The tables a program can build: a constructor call with a positive
    [int], then [insert] calls with the words [ws], in that order. *)
Definition built (max_buckets : Z) (ws : list str) (t : DictionaryImpl)
  : Prop :=
  (1 <= max_buckets <= INT_MAX)%Z /\
  insert_all (DictionaryImpl_new max_buckets) ws = Some t.

(** The representation invariant of the table. *)
Record wf (t : DictionaryImpl) : Prop := mk_wf {
  wf_B_pos : 0 < m_B t;
  wf_B_max : m_B t <= m_maxB t;
  wf_maxB_int : m_maxB t < 2 ^ 31;
  wf_N_uint : m_N t < 2 ^ 32;
  wf_length : length (m_words t) = N.to_nat (m_B t);
  wf_placed : forall i w,
      w ∈ chain_at (m_words t) i -> bucket_of (m_B t) (std_sort w) = i
}.

(** The table [t] holds the words [ws] passed to [insert]: for every
    non-empty key, the words of that key in the bucket of the key are the
    letters-only forms of the inserted words of that key, in insertion
    order. *)
Definition holds (t : DictionaryImpl) (ws : list str) : Prop :=
  forall k, k <> [] ->
    matching k (chain_at (m_words t) (bucket_of (m_B t) k))
    = matching k (removeNonLetters <$> ws).

End Specification.

(** A stand-in for [std::hash<string>], for concrete runs. *)
Definition sample_hash (s : str) : N :=
  foldl (λ h c, (h * 31 + N_of_ascii c) mod 2 ^ 64) 7 s.

(** ** Concrete tables *)


(** The scenario of the specification: four words, at most 10 buckets. *)
Definition scenario_words : list str :=
  [lit "listen"; lit "enlist"; lit "banana"; lit "inlets"].

Definition scenario_table : DictionaryImpl :=
  Eval vm_compute in
    default (DictionaryImpl_new 10)
      (insert_all sample_hash (DictionaryImpl_new 10) scenario_words).

(** Seven inserts into a table of at most 20 buckets: the eighth call of
    [insert] is the first one that makes the table grow. *)
Definition seven_words : list str :=
  [lit "listen"; lit "enlist"; lit "banana"; lit "inlets";
   lit "stop"; lit "Dog!"; lit "123"].

Definition seven_table : DictionaryImpl :=
  Eval vm_compute in
    default (DictionaryImpl_new 20)
      (insert_all sample_hash (DictionaryImpl_new 20) seven_words).

(** Two more inserts: the table has grown from 10 to 20 buckets. *)
Definition nine_words : list str := seven_words ++ [lit "pots"; lit "tops"].

Definition nine_table : DictionaryImpl :=
  Eval vm_compute in
    default (DictionaryImpl_new 20)
      (insert_all sample_hash (DictionaryImpl_new 20) nine_words).

(** ** The loop of [removeNonLetters] on its buffer *)

(** The loop of [removeNonLetters] as it runs on the buffer of [s]:
    [from] walks over the positions of the buffer, [to] is the position
    of the next write; both start at [s.begin()]. *)
Definition compact_step (st : str * nat) (from : nat) : str * nat :=
  let '(buf, to) := st in
  match buf !! from with
  | Some c =>
      if isalpha c then (<[to := tolower c]> buf, S to) else (buf, to)
  | None => (buf, to)
  end.

(** [removeNonLetters(s)] on the buffer: the loop, then
    [s.erase(to, s.end())]. *)
Definition removeNonLetters_in_place (s : str) : str :=
  let '(buf, to) := foldl compact_step (s, 0%nat) (seq 0 (length s)) in
  take to buf.

(** ** Sequences of calls on the wrapper *)

Section Calls.

Variable strhash : str -> N.

(** A sequence of [Dictionary::insert] calls. *)
Fixpoint Dictionary_insert_all (d : Dictionary) (ws : list str)
  : option Dictionary :=
  match ws with
  | [] => Some d
  | w :: rest =>
      d' ← Dictionary_insert strhash d w; Dictionary_insert_all d' rest
  end.

End Calls.

(** Two tables with the same buckets and the same counts: they differ at
    most in [m_maxB]. *)
Definition same_buckets (t1 t2 : DictionaryImpl) : Prop :=
  m_B t1 = m_B t2 /\ m_N t1 = m_N t2 /\ m_words t1 = m_words t2.

(** One more insert into [seven_table]: the table grows. *)
Definition eight_table : DictionaryImpl :=
  Eval vm_compute in
    default seven_table (insert sample_hash seven_table (lit "pots")).

(** ** The table in the free store *)

(** Addresses. *)
Abbreviation loc := positive.

(** [DictionaryImpl] with its pointer member: [m_words] is the address of
    the bucket array. *)
Record DictionaryImpl_mem : Type := mkMem {
  p_maxB : N;
  p_B : N;
  p_N : N;
  p_words : loc
}.

(** [Dictionary] with its pointer member. *)
Record Dictionary_mem : Type := mkDictMem { p_impl : loc }.

(** The free store: the arrays [list<string>*[n]], the lists
    [list<string>] and the [DictionaryImpl] objects that are alive, each
    under its address. A null pointer is [None]. *)
Record heap : Type := mkHeap {
  arrays : gmap loc (list (option loc));
  lists : gmap loc (list str);
  impls : gmap loc DictionaryImpl_mem
}.

(** [new list<string>*[n]], followed by the loop that sets the [n]
    entries to [nullptr]. *)
Definition new_array (n : N) (h : heap) : loc * heap :=
  let a := fresh (dom (arrays h)) in
  (a, {| arrays := <[a := replicate (N.to_nat n) None]> (arrays h);
         lists := lists h; impls := impls h |}).

(** [new list<string>]. *)
Definition new_list (h : heap) : loc * heap :=
  let l := fresh (dom (lists h)) in
  (l, {| arrays := arrays h; lists := <[l := []]> (lists h);
         impls := impls h |}).

(** [delete p] for a [list<string>* p]: nothing for a null pointer,
    undefined for a pointer to no live list. *)
Definition delete_list (p : option loc) (h : heap) : option heap :=
  match p with
  | None => Some h
  | Some l =>
      match lists h !! l with
      | Some _ =>
          Some {| arrays := arrays h; lists := delete l (lists h);
                  impls := impls h |}
      | None => None
      end
  end.

(** [delete[] a]. *)
Definition delete_array (a : loc) (h : heap) : option heap :=
  match arrays h !! a with
  | Some _ =>
      Some {| arrays := delete a (arrays h); lists := lists h;
              impls := impls h |}
  | None => None
  end.

Section TableInMemory.

Variable strhash : str -> N.

(** The constructor. *)
Definition DictionaryImpl_new_mem (max_buckets : Z) (h : heap)
  : DictionaryImpl_mem * heap :=
  let maxB := Z.to_N (max_buckets mod 2 ^ 32) in
  let B := if 10 <? maxB then 10 else maxB in
  let '(a, h') := new_array B h in
  ({| p_maxB := maxB; p_B := B; p_N := 0; p_words := a |}, h').

(** The loop of the destructor from index [i] on, [n] rounds:
    [delete m_words[i]]. *)
Fixpoint delete_buckets (a : loc) (i n : nat) (h : heap) : option heap :=
  match n with
  | O => Some h
  | S n' =>
      slots ← arrays h !! a;
      p ← slots !! i;
      h' ← delete_list p h;
      delete_buckets a (S i) n' h'
  end.

(** The destructor. *)
Definition DictionaryImpl_delete_mem (d : DictionaryImpl_mem) (h : heap)
  : option heap :=
  h' ← delete_buckets (p_words d) 0 (N.to_nat (p_B d)) h;
  delete_array (p_words d) h'.

(** [if (!arr[bucket]) arr[bucket] = new list<string>;
     arr[bucket]->push_back(word);] on the array at [a]. *)
Definition push_back_mem (a : loc) (bucket : N) (word : str) (h : heap)
  : option heap :=
  slots ← arrays h !! a;
  p ← slots !! N.to_nat bucket;
  match p with
  | Some l =>
      chain ← lists h !! l;
      Some {| arrays := arrays h;
              lists := <[l := chain ++ [word]]> (lists h);
              impls := impls h |}
  | None =>
      let '(l, h1) := new_list h in
      let h2 := {| arrays := <[a := <[N.to_nat bucket := Some l]> slots]>
                               (arrays h1);
                   lists := lists h1; impls := impls h1 |} in
      chain ← lists h2 !! l;
      Some {| arrays := arrays h2;
              lists := <[l := chain ++ [word]]> (lists h2);
              impls := impls h2 |}
  end.

(** The inner transfer loop of [tryRehash] over the words of one chain. *)
Fixpoint transfer_chain_mem (B : N) (newArr : loc) (chain : list str)
    (h : heap) : option heap :=
  match chain with
  | [] => Some h
  | it :: rest =>
      bucket ← hash strhash B (std_sort it);
      h' ← push_back_mem newArr bucket it h;
      transfer_chain_mem B newArr rest h'
  end.

(** The outer loop from index [i] on, [n] rounds: the chain of
    [m_words[i]], if there is one, is transferred, then
    [delete m_words[i]]. *)
Fixpoint transfer_mem (B : N) (old newArr : loc) (i n : nat) (h : heap)
  : option heap :=
  match n with
  | O => Some h
  | S n' =>
      slots ← arrays h !! old;
      p ← slots !! i;
      h1 ← match p with
           | Some l =>
               chain ← lists h !! l;
               transfer_chain_mem B newArr chain h
           | None => Some h
           end;
      h2 ← delete_list p h1;
      transfer_mem B old newArr (S i) n' h2
  end.

(** [tryRehash()]. *)
Definition tryRehash_mem (d : DictionaryImpl_mem) (h : heap)
  : option (DictionaryImpl_mem * heap) :=
  if (p_B d <? p_maxB d) && load_factor_exceeded (p_N d) (p_B d) then
    let oldSize := p_B d in
    let newB :=
      if uint32 (2 * p_B d) <? p_maxB d then uint32 (2 * p_B d)
      else p_maxB d in
    let '(newArr, h1) := new_array newB h in
    h2 ← transfer_mem newB (p_words d) newArr 0 (N.to_nat oldSize) h1;
    h3 ← delete_array (p_words d) h2;
    Some ({| p_maxB := p_maxB d; p_B := newB; p_N := p_N d;
             p_words := newArr |}, h3)
  else Some (d, h).

(** [insert(word)]. *)
Definition insert_mem (d : DictionaryImpl_mem) (word : str) (h : heap)
  : option (DictionaryImpl_mem * heap) :=
  let d1 := {| p_maxB := p_maxB d; p_B := p_B d;
               p_N := uint32 (p_N d + 1); p_words := p_words d |} in
  '(d2, h2) ← tryRehash_mem d1 h;
  let word := removeNonLetters word in
  if decide (word = []) then Some (d2, h2)
  else
    let temp := std_sort word in
    bucket ← hash strhash (p_B d2) temp;
    h3 ← push_back_mem (p_words d2) bucket word h2;
    Some (d2, h3).

(** [lookup(letters, callback)]: the world the callback has acted on.
    The method is [const] and writes nothing to the store. *)
Definition lookup_mem {W : Type} (d : DictionaryImpl_mem) (letters : str)
    (callback : callback_t W) (world : W) (h : heap) : option W :=
  match callback with
  | None => Some world
  | Some cb =>
      let letters := removeNonLetters letters in
      if decide (letters = []) then Some world
      else
        let letters := std_sort letters in
        bucket ← hash strhash (p_B d) letters;
        slots ← arrays h !! p_words d;
        p ← slots !! N.to_nat bucket;
        match p with
        | None => Some world
        | Some l =>
            chain ← lists h !! l;
            Some (visit_chain cb letters chain world)
        end
  end.

(** A sequence of [insert] calls. *)
Fixpoint insert_all_mem (d : DictionaryImpl_mem) (ws : list str) (h : heap)
  : option (DictionaryImpl_mem * heap) :=
  match ws with
  | [] => Some (d, h)
  | w :: rest => '(d', h') ← insert_mem d w h; insert_all_mem d' rest h'
  end.

(** [Dictionary::Dictionary(int maxBuckets)]:
    [m_impl = new DictionaryImpl(maxBuckets)]. *)
Definition Dictionary_new_mem (maxBuckets : Z) (h : heap)
  : Dictionary_mem * heap :=
  let '(d, h1) := DictionaryImpl_new_mem maxBuckets h in
  let p := fresh (dom (impls h1)) in
  ({| p_impl := p |},
   {| arrays := arrays h1; lists := lists h1;
      impls := <[p := d]> (impls h1) |}).

(** [Dictionary::~Dictionary()]: [delete m_impl], which runs the
    destructor of the [DictionaryImpl] and releases the object. *)
Definition Dictionary_delete_mem (D : Dictionary_mem) (h : heap)
  : option heap :=
  d ← impls h !! p_impl D;
  h1 ← DictionaryImpl_delete_mem d h;
  Some {| arrays := arrays h1; lists := lists h1;
          impls := delete (p_impl D) (impls h1) |}.

(** [Dictionary::insert]: [m_impl->insert(word)]. *)
Definition Dictionary_insert_mem (D : Dictionary_mem) (word : str) (h : heap)
  : option heap :=
  d ← impls h !! p_impl D;
  '(d', h1) ← insert_mem d word h;
  Some {| arrays := arrays h1; lists := lists h1;
          impls := <[p_impl D := d']> (impls h1) |}.

(** [Dictionary::lookup]: [m_impl->lookup(letters, callback)]. *)
Definition Dictionary_lookup_mem {W : Type} (D : Dictionary_mem)
    (letters : str) (callback : callback_t W) (world : W) (h : heap)
  : option W :=
  d ← impls h !! p_impl D;
  lookup_mem d letters callback world h.

(** A sequence of [Dictionary::insert] calls. *)
Fixpoint Dictionary_insert_all_mem (D : Dictionary_mem) (ws : list str)
    (h : heap) : option heap :=
  match ws with
  | [] => Some h
  | w :: rest =>
      h' ← Dictionary_insert_mem D w h; Dictionary_insert_all_mem D rest h'
  end.

End TableInMemory.

(** The store [h] consists of the cells [own], at distinct addresses, on
    top of the store [h0]. *)
Definition heap_is {V : Type} (h0 : gmap loc V) (own : list (loc * V))
    (h : gmap loc V) : Prop :=
  NoDup own.*1 /\ (forall l, l ∈ own.*1 -> h0 !! l = None) /\
  h = list_to_map own ∪ h0.

(** A bucket array with the chains its pointers lead to. *)
Abbreviation cells := (list (option (loc * list str))).

Definition slots_of (cs : cells) : list (option loc) :=
  fmap (M:=option) fst <$> cs.
Definition contents (cs : cells) : buckets :=
  fmap (M:=option) snd <$> cs.
Definition chains_of (cs : cells) : list (loc * list str) := omap id cs.

(** The store [h] holds the table [t] at [d], and apart from it what the
    store [h0] holds. *)
Definition represents (h0 h : heap) (d : DictionaryImpl_mem)
    (t : DictionaryImpl) : Prop :=
  p_maxB d = m_maxB t /\ p_B d = m_B t /\ p_N d = m_N t /\
  exists cs : cells,
    m_words t = contents cs /\
    heap_is (arrays h0) [(p_words d, slots_of cs)] (arrays h) /\
    heap_is (lists h0) (chains_of cs) (lists h) /\
    impls h = impls h0.

(** The store [h] holds the dictionary [t] at [D], and apart from it what
    the store [h0] holds. *)
Definition represents_Dictionary (h0 h : heap) (D : Dictionary_mem)
    (t : DictionaryImpl) : Prop :=
  exists d : DictionaryImpl_mem,
    heap_is (impls h0) [(p_impl D, d)] (impls h) /\
    represents
      {| arrays := arrays h0; lists := lists h0; impls := impls h |} h d t.

(** The empty store. *)
Definition empty_heap : heap := {| arrays := ∅; lists := ∅; impls := ∅ |}.

(** * Properties *)

(** ** Strings *)

Lemma sorted_insert_length c s : length (sorted_insert c s) = S (length s).
Proof.
  induction s as [|d s IH]; simpl; [done|].
  destruct (char_le c d); simpl; [done|]. by rewrite IH.
Qed.

Lemma std_sort_cons c s : std_sort (c :: s) = sorted_insert c (std_sort s).
Proof. reflexivity. Qed.

Lemma std_sort_length s : length (std_sort s) = length s.
Proof.
  induction s as [|c s IH]; [done|].
  rewrite std_sort_cons, sorted_insert_length, IH. done.
Qed.

Lemma std_sort_nil_iff s : std_sort s = [] <-> s = [].
Proof.
  split; [|by intros ->].
  intros H. apply (f_equal length) in H. rewrite std_sort_length in H.
  by destruct s.
Qed.

Lemma sorted_insert_perm c s : Permutation (sorted_insert c s) (c :: s).
Proof.
  induction s as [|d s IH]; simpl; [done|].
  destruct (char_le c d); [done|].
  rewrite IH. apply perm_swap.
Qed.

(** [std_sort] rearranges the characters. *)
Lemma std_sort_perm s : Permutation (std_sort s) s.
Proof.
  induction s as [|c s IH]; [done|].
  rewrite std_sort_cons, sorted_insert_perm. by constructor.
Qed.

Lemma sorted_insert_sorted c s :
  StronglySorted (λ a b, char_le a b = true) s ->
  StronglySorted (λ a b, char_le a b = true) (sorted_insert c s).
Proof.
  induction 1 as [|d s Hs IH Hd]; simpl.
  - repeat constructor.
  - destruct (char_le c d) eqn:E.
    + constructor; [by constructor|]. constructor; [done|].
      eapply Forall_impl; [exact Hd|]. intros x Hx. unfold char_le in *.
      apply N.leb_le in E, Hx. apply N.leb_le. lia.
    + constructor; [done|].
      rewrite sorted_insert_perm. constructor; [|done].
      unfold char_le in *. apply N.leb_gt in E. apply N.leb_le. lia.
Qed.

(** [std_sort] puts the characters in ascending order. *)
Lemma std_sort_sorted s : StronglySorted (λ a b, char_le a b = true) (std_sort s).
Proof.
  induction s as [|c s IH]; [constructor|].
  rewrite std_sort_cons. by apply sorted_insert_sorted.
Qed.

Lemma sorted_insert_comm a b s :
  StronglySorted (λ x y, char_le x y = true) s ->
  sorted_insert a (sorted_insert b s) = sorted_insert b (sorted_insert a s).
Proof.
  assert (Hanti : forall x y, char_le x y = true -> char_le y x = true -> x = y).
  { intros x y H1 H2. unfold char_le in *. apply N.leb_le in H1, H2.
    rewrite <- (ascii_N_embedding x), <- (ascii_N_embedding y).
    f_equal. lia. }
  assert (Htot : forall x y, char_le x y = false -> char_le y x = true).
  { intros x y H. unfold char_le in *. apply N.leb_gt in H. apply N.leb_le. lia. }
  induction 1 as [|d s Hs IH Hd]; simpl.
  - destruct (char_le a b) eqn:E1, (char_le b a) eqn:E2; try done.
    + by rewrite (Hanti a b).
    + apply Htot in E1. congruence.
  - destruct (char_le b d) eqn:Eb, (char_le a d) eqn:Ea; simpl;
      rewrite ?Eb, ?Ea; try done.
    + destruct (char_le a b) eqn:E1, (char_le b a) eqn:E2; try done.
      * by rewrite (Hanti a b).
      * apply Htot in E1. congruence.
    + destruct (char_le a b) eqn:E1; [|done].
      exfalso. unfold char_le in *.
      apply N.leb_le in E1, Eb. apply N.leb_gt in Ea. lia.
    + destruct (char_le b a) eqn:E1; [|done].
      exfalso. unfold char_le in *.
      apply N.leb_le in E1, Ea. apply N.leb_gt in Eb. lia.
    + by rewrite IH.
Qed.

(** Two strings with the same characters have the same sorted form: the
    sorted form identifies anagrams. *)
Lemma std_sort_of_perm s1 s2 : Permutation s1 s2 -> std_sort s1 = std_sort s2.
Proof.
  induction 1 as [|c s1 s2 _ IH|a b s|s1 s2 s3 _ IH1 _ IH2].
  - done.
  - by rewrite !std_sort_cons, IH.
  - rewrite !std_sort_cons. apply sorted_insert_comm, std_sort_sorted.
  - congruence.
Qed.

Lemma isalpha_tolower c : isalpha c = true -> isalpha (tolower c) = true.
Proof.
  unfold isalpha, tolower. cbv zeta. intros H.
  destruct ((65 <=? N_of_ascii c) && (N_of_ascii c <=? 90)) eqn:E;
    [|by rewrite E].
  assert (N_of_ascii c + 32 < 256) by
    (apply andb_true_iff in E as [_ E]; apply N.leb_le in E; lia).
  rewrite N_ascii_embedding by done.
  apply andb_true_iff in E as [E1 E2]. apply N.leb_le in E1, E2.
  apply orb_true_iff. right. apply andb_true_iff.
  split; apply N.leb_le; lia.
Qed.

Lemma tolower_idemp c : tolower (tolower c) = tolower c.
Proof.
  unfold tolower. cbv zeta.
  destruct ((65 <=? N_of_ascii c) && (N_of_ascii c <=? 90)) eqn:E;
    [|by rewrite E].
  apply andb_true_iff in E as [E1 E2]. apply N.leb_le in E1, E2.
  rewrite N_ascii_embedding by lia.
  replace (N_of_ascii c + 32 <=? 90) with false
    by (symmetry; apply N.leb_gt; lia).
  by rewrite andb_false_r.
Qed.

(** The stored form of a word is a fixed point of [removeNonLetters]. *)
Lemma removeNonLetters_idemp s :
  removeNonLetters (removeNonLetters s) = removeNonLetters s.
Proof.
  induction s as [|c s IH]; simpl; [done|].
  destruct (isalpha c) eqn:E; [|done]. simpl.
  by rewrite (isalpha_tolower c E), tolower_idemp, IH.
Qed.

Lemma canonical_nil_iff s : canonical s = [] <-> removeNonLetters s = [].
Proof. apply std_sort_nil_iff. Qed.

Lemma canonical_removeNonLetters s :
  canonical (removeNonLetters s) = canonical s.
Proof. unfold canonical. by rewrite removeNonLetters_idemp. Qed.

Lemma removeNonLetters_perm s1 s2 :
  Permutation s1 s2 -> Permutation (removeNonLetters s1) (removeNonLetters s2).
Proof.
  induction 1 as [|c s1 s2 _ IH|a b s|s1 s2 s3 _ IH1 _ IH2]; simpl.
  - done.
  - destruct (isalpha c); [by constructor|done].
  - destruct (isalpha a), (isalpha b); try done. apply perm_swap.
  - by etransitivity.
Qed.

(** Rearranging the characters of a string does not change its canonical
    key. *)
Lemma canonical_of_perm s1 s2 : Permutation s1 s2 -> canonical s1 = canonical s2.
Proof. intros H. by apply std_sort_of_perm, removeNonLetters_perm. Qed.

(** ** The load factor test *)

Section LoadFactor.

#[local] Open Scope Z_scope.

(** The number of binary digits of a positive number. *)
Lemma digits2_pos_bounds p :
  2 ^ (Zpos (digits2_pos p) - 1) <= Zpos p < 2 ^ Zpos (digits2_pos p).
Proof.
  induction p as [p IH|p IH|]; simpl digits2_pos; [| |simpl; lia].
  all: rewrite Pos2Z.inj_succ;
    replace (Z.succ (Zpos (digits2_pos p)) - 1)
      with (Z.succ (Zpos (digits2_pos p) - 1)) by lia;
    rewrite !Z.pow_succ_r by lia; lia.
Qed.

Lemma digits2_pos_unique p d :
  0 < d -> 2 ^ (d - 1) <= Zpos p < 2 ^ d -> Zpos (digits2_pos p) = d.
Proof.
  intros Hd [Hlo Hhi]. pose proof (digits2_pos_bounds p) as [Hlo' Hhi'].
  destruct (Z.lt_trichotomy (Zpos (digits2_pos p)) d) as [Hlt|[Heq|Hgt]];
    [|done|].
  - assert (2 ^ Zpos (digits2_pos p) <= 2 ^ (d - 1))
      by (apply Z.pow_le_mono_r; lia).
    lia.
  - assert (2 ^ d <= 2 ^ (Zpos (digits2_pos p) - 1))
      by (apply Z.pow_le_mono_r; lia).
    lia.
Qed.

Lemma record_of_loc_m q l : shr_m (shr_record_of_loc q l) = q.
Proof. by destruct l as [|[]]. Qed.

Lemma loc_of_record_of_loc q l :
  loc_of_shr_record (shr_record_of_loc q l) = l.
Proof. by destruct l as [|[]]. Qed.

(** One right shift followed by rounding to nearest even: half of [q],
    rounded. *)
Lemma shr_1_round q l :
  0 < q ->
  exists r,
    (let mrs := shr_1 (shr_record_of_loc q l) in
     round_nearest_even (shr_m mrs) (loc_of_shr_record mrs)) = r /\
    q - 1 <= 2 * r <= q + 1 /\ (Z.even q = true -> 2 * r = q).
Proof.
  intros Hq. destruct q as [|p|p]; [lia| |lia].
  destruct p as [p|p|].
  - destruct l as [|[]]; eexists; (split; [reflexivity|]);
      cbn [shr_1 shr_record_of_loc shr_m loc_of_shr_record orb
           round_nearest_even];
      try destruct (Z.even (Z.pos p));
      (split; [lia|intros H; simpl in H; discriminate]).
  - destruct l as [|[]]; eexists; (split; [reflexivity|]);
      cbn [shr_1 shr_record_of_loc shr_m loc_of_shr_record orb
           round_nearest_even];
      (split; [lia|intros _; lia]).
  - destruct l as [|[]]; eexists; (split; [reflexivity|]);
      cbn [shr_1 shr_record_of_loc shr_m loc_of_shr_record orb
           round_nearest_even];
      (split; [simpl; lia|intros H; simpl in H; discriminate]).
Qed.

(** Above the subnormal range, a binary32 number keeps 24 bits. *)
Lemma fexp_value e : -125 <= e -> fexp prec emax e = e - 24.
Proof. intros H. unfold fexp, emin, prec, emax. lia. Qed.

Lemma rne_bounds q l :
  q <= round_nearest_even q l <= q + 1 /\
  (l = loc_Exact -> round_nearest_even q l = q).
Proof.
  destruct l as [|[]]; simpl; try destruct (Z.even q); split; try lia; done.
Qed.

Lemma Zdigits2_24 q : 2 ^ 23 <= q < 2 ^ 24 -> Zdigits2 q = 24.
Proof.
  intros H. destruct q as [|p|p]; [lia| |lia]. simpl.
  apply digits2_pos_unique; lia.
Qed.

Lemma Zdigits2_25 q : 2 ^ 24 <= q < 2 ^ 25 -> Zdigits2 q = 25.
Proof.
  intros H. destruct q as [|p|p]; [lia| |lia]. simpl.
  apply digits2_pos_unique; lia.
Qed.

Lemma shr_fexp_24 q e l :
  2 ^ 23 <= q < 2 ^ 24 -> -149 <= e ->
  shr_fexp prec emax q e l = (shr_record_of_loc q l, e).
Proof.
  intros Hq He. unfold shr_fexp. rewrite (Zdigits2_24 q Hq).
  rewrite fexp_value by lia.
  replace (24 + e - 24 - e) with 0 by lia. reflexivity.
Qed.

Lemma shr_fexp_25 q e l :
  2 ^ 24 <= q < 2 ^ 25 -> -150 <= e ->
  shr_fexp prec emax q e l = (shr_1 (shr_record_of_loc q l), e + 1).
Proof.
  intros Hq He. unfold shr_fexp. rewrite (Zdigits2_25 q Hq).
  rewrite fexp_value by lia.
  replace (25 + e - 24 - e) with 1 by lia. reflexivity.
Qed.

Lemma finish_24 r e :
  2 ^ 23 <= r < 2 ^ 24 -> -149 <= e <= 104 ->
  (let '(mrs, e'') := shr_fexp prec emax r e loc_Exact in
   match shr_m mrs with
   | Z0 => S754_zero false
   | Zpos m => if Z.leb e'' (emax - prec) then S754_finite false m e''
               else S754_infinity false
   | _ => S754_nan
   end) = S754_finite false (Z.to_pos r) e.
Proof.
  intros Hr He. rewrite shr_fexp_24 by lia. simpl shr_m.
  destruct r as [|p|p]; [lia| |lia].
  replace (e <=? emax - prec) with true; [done|].
  symmetry. apply Z.leb_le. unfold emax, prec. lia.
Qed.

Lemma finish_25 e :
  -150 <= e <= 103 ->
  (let '(mrs, e'') := shr_fexp prec emax (2 ^ 24) e loc_Exact in
   match shr_m mrs with
   | Z0 => S754_zero false
   | Zpos m => if Z.leb e'' (emax - prec) then S754_finite false m e''
               else S754_infinity false
   | _ => S754_nan
   end) = S754_finite false (Z.to_pos (2 ^ 23)) (e + 1).
Proof.
  intros He. rewrite shr_fexp_25 by lia.
  change (shr_m (shr_1 (shr_record_of_loc (2 ^ 24) loc_Exact))) with (2 ^ 23).
  change (2 ^ 23) with (Zpos (Z.to_pos (2 ^ 23))) at 1. cbv iota beta.
  replace (e + 1 <=? emax - prec) with true; [done|].
  symmetry. apply Z.leb_le. unfold emax, prec. lia.
Qed.

(** The rounding of a quotient with 24 or 25 bits. *)
Lemma binary_round_aux_cases q e l :
  2 ^ 23 <= q < 2 ^ 25 -> -149 <= e <= 100 ->
  exists m e',
    binary_round_aux prec emax false q e l = S754_finite false m e' /\
    2 ^ 23 <= Zpos m < 2 ^ 24 /\
    (l = loc_Exact -> q < 2 ^ 24 -> Zpos m = q /\ e' = e) /\
    ((e' = e /\ q <= Zpos m <= q + 1) \/
     (e' = e + 1 /\ q - 1 <= 2 * Zpos m <= q + 1 /\
      (Z.even q = true -> 2 * Zpos m = q)) \/
     (e' = e + 2 /\ 2 ^ 25 - 1 <= q)).
Proof.
  intros Hq He. unfold binary_round_aux.
  destruct (Z.lt_ge_cases q (2 ^ 24)) as [Hlt|Hge].
  - rewrite shr_fexp_24 by lia.
    rewrite record_of_loc_m, loc_of_record_of_loc.
    destruct (rne_bounds q l) as [Hr Hexact].
    set (r := round_nearest_even q l) in *.
    destruct (Z.lt_ge_cases r (2 ^ 24)) as [Hr24|Hr24].
    + rewrite finish_24 by lia.
      exists (Z.to_pos r), e. rewrite Z2Pos.id by lia.
      refine (conj eq_refl (conj _ (conj _ _))); [lia| |left; lia].
      intros Hl _. split; [by apply Hexact|done].
    + assert (r = 2 ^ 24) as -> by lia.
      rewrite finish_25 by lia.
      exists (Z.to_pos (2 ^ 23)), (e + 1).
      refine (conj eq_refl (conj _ (conj _ _))); [simpl; lia| |].
      * intros Hl _. specialize (Hexact Hl). lia.
      * right; left. assert (q = 2 ^ 24 - 1) as -> by lia.
        refine (conj eq_refl (conj _ _)); [simpl; lia|done].
  - rewrite shr_fexp_25 by lia.
    destruct (shr_1_round q l) as (r & Hr & Hbounds & Heven); [lia|].
    cbv zeta in Hr. rewrite Hr.
    destruct (Z.lt_ge_cases r (2 ^ 24)) as [Hr24|Hr24].
    + rewrite finish_24 by lia.
      exists (Z.to_pos r), (e + 1). rewrite Z2Pos.id by lia.
      refine (conj eq_refl (conj _ (conj _ _))); [lia|lia|right; left; done].
    + assert (r = 2 ^ 24) as -> by lia.
      rewrite finish_25 by lia.
      exists (Z.to_pos (2 ^ 23)), (e + 1 + 1).
      refine (conj eq_refl (conj _ (conj _ _))); [simpl; lia|lia|].
      right; right. split; lia.
Qed.

Lemma div_eucl_div_mod a b : Z.div_eucl a b = (a / b, a mod b).
Proof. unfold Z.div, Z.modulo. by destruct (Z.div_eucl a b). Qed.

(** The division of a 24-bit mantissa by the mantissa 10485760 of the
    bucket counts 10 * 2^k. *)
Lemma SFdiv_core_24 m e1 e2 :
  2 ^ 23 <= Zpos m < 2 ^ 24 -> -100 <= e1 - e2 <= 100 ->
  SFdiv_core_binary prec emax (Zpos m) e1 10485760 e2
  = (Zpos m * 2 ^ 24 / 10485760, e1 - e2 - 24,
     new_location 10485760 ((Zpos m * 2 ^ 24) mod 10485760)).
Proof.
  intros Hm He. unfold SFdiv_core_binary.
  rewrite (Zdigits2_24 (Zpos m) Hm).
  change (Zdigits2 10485760) with 24.
  replace (24 + e1 - (24 + e2)) with (e1 - e2) by lia.
  rewrite fexp_value by lia.
  rewrite Z.min_l by lia.
  replace (e1 - e2 - (e1 - e2 - 24)) with 24 by lia.
  cbv iota beta zeta. rewrite Z.shiftl_mul_pow2 by lia.
  by rewrite div_eucl_div_mod.
Qed.

(** A quotient of at most 7/10 is not above [0.7f]. *)
Lemma quotient_not_above m e1 e2 :
  2 ^ 23 <= Zpos m < 2 ^ 24 ->
  (e1 = e2 - 1 /\ Zpos m <= 14680064) \/ e1 = e2 - 2 ->
  SFltb f0_7 (SFdiv prec emax (S754_finite false m e1)
                (S754_finite false 10485760 e2)) = false.
Proof.
  intros Hm Hcase. unfold SFdiv. rewrite SFdiv_core_24 by lia.
  set (q := Zpos m * 2 ^ 24 / 10485760).
  assert (q * 10485760 <= Zpos m * 2 ^ 24 < (q + 1) * 10485760) as Hq.
  { pose proof (Z.mul_div_le (Zpos m * 2 ^ 24) 10485760) as Hlo.
    pose proof (Z.mul_succ_div_gt (Zpos m * 2 ^ 24) 10485760) as Hhi.
    fold q in Hlo, Hhi. lia. }
  cbn [xorb].
  destruct (binary_round_aux_cases q (e1 - e2 - 24)
              (new_location 10485760 ((Zpos m * 2 ^ 24) mod 10485760)))
    as (m' & e' & -> & Hm' & _ & Hres); [lia|lia|].
  unfold SFltb, SFcompare, f0_7.
  destruct Hcase as [[-> Hle]| ->].
  - replace (e2 - 1 - e2 - 24) with (-25) in Hres by lia.
    destruct Hres as [[-> _]|[(-> & Hb & Heven)|[_ Hbig]]]; [done| |lia].
    change (-25 + 1) with (-24). cbn [Z.compare Pos.compare_cont].
    fold (Pos.compare 11744051 m').
    destruct (Pos.compare_spec 11744051 m') as [_|Hlt|_]; [done| |done].
    exfalso. destruct (Z.even q) eqn:Eq.
    + specialize (Heven eq_refl). lia.
    + assert (q <> 23488102) by (intros ->; discriminate). lia.
  - replace (e2 - 2 - e2 - 24) with (-26) in Hres by lia.
    destruct Hres as [[-> _]|[(-> & _)|[_ Hbig]]]; [done|done|lia].
Qed.

Lemma iter_xO p n : Zpos (Pos.iter xO p n) = Zpos p * 2 ^ Zpos n.
Proof.
  induction n as [|n IH] using Pos.peano_ind.
  - simpl. lia.
  - rewrite Pos.iter_succ, Pos2Z.inj_xO, IH, Pos2Z.inj_succ.
    rewrite Z.pow_succ_r by lia. lia.
Qed.

(** An integer of at most 24 bits is converted exactly. *)
Lemma float_of_uint_exact n c :
  0 <= c <= 23 -> 2 ^ 23 <= Z.of_N n * 2 ^ c < 2 ^ 24 ->
  float_of_uint n = S754_finite false (Z.to_pos (Z.of_N n * 2 ^ c)) (- c).
Proof.
  intros Hc Hn. unfold float_of_uint.
  destruct (Z.of_N n) as [|p|p] eqn:Ep; [lia| |lia].
  unfold binary_normalize, binary_round.
  assert (Zpos (digits2_pos p) = 24 - c) as Hd.
  { apply digits2_pos_unique; [lia|].
    replace 23 with (24 - c - 1 + c) in Hn at 1 by lia.
    replace 24 with (24 - c + c) in Hn at 2 by lia.
    rewrite !Z.pow_add_r in Hn by lia.
    assert (0 < 2 ^ c) by (apply Z.pow_pos_nonneg; lia). nia. }
  rewrite Hd, Z.add_0_r, fexp_value by lia.
  replace (24 - c - 24) with (- c) by lia.
  unfold shl_align. rewrite Z.sub_0_r.
  destruct c as [|cp|cp]; [| |lia].
  - change (- 0) with 0. cbv iota beta. rewrite Z.mul_1_r in *.
    destruct (binary_round_aux_cases (Zpos p) 0 loc_Exact)
      as (m & e' & -> & _ & Hexact & _); [lia|lia|].
    destruct (Hexact eq_refl) as [Hm ->]; [lia|]. by injection Hm as ->.
  - change (- Zpos cp) with (Zneg cp). cbv iota beta.
    destruct (binary_round_aux_cases (Zpos (Pos.iter xO p cp)) (Zneg cp)
                loc_Exact)
      as (m & e' & -> & _ & Hexact & _); [rewrite iter_xO; lia|lia|].
    destruct (Hexact eq_refl) as [Hm ->]; [rewrite iter_xO; lia|].
    rewrite iter_xO in Hm. rewrite <- Hm. by rewrite Pos2Z.id.
Qed.

(** An integer of 25 bits is rounded to an even one. *)
Lemma float_of_uint_25 n :
  2 ^ 24 <= Z.of_N n <= 29360128 ->
  exists m, float_of_uint n = S754_finite false m 1 /\
            2 ^ 23 <= Zpos m <= 14680064.
Proof.
  intros Hn. unfold float_of_uint.
  destruct (Z.of_N n) as [|p|p] eqn:Ep; [lia| |lia].
  unfold binary_normalize, binary_round.
  assert (Zpos (digits2_pos p) = 25) as -> by (apply digits2_pos_unique; lia).
  change (fexp prec emax (25 + 0)) with 1.
  change (shl_align p 0 1) with (p, 0). cbv iota beta.
  destruct (binary_round_aux_cases (Zpos p) 0 loc_Exact)
    as (m & e' & -> & Hm & _ & Hres); [lia|lia|].
  destruct Hres as [[-> Hb]|[(-> & Hb & Heven)|[_ Hbig]]]; [lia| |lia].
  exists m. split; [done|]. split; [lia|].
  destruct (Z.even (Zpos p)) eqn:Eq.
  - specialize (Heven eq_refl). lia.
  - assert (Zpos p <> 29360128)
      by (intros Heq; rewrite Heq in Eq; discriminate).
    lia.
Qed.

Lemma below_exact n b e2 c :
  float_of_uint b = S754_finite false 10485760 e2 ->
  0 <= c <= 23 -> 2 ^ 23 <= Z.of_N n * 2 ^ c < 2 ^ 24 ->
  (- c = e2 - 1 /\ Z.of_N n * 2 ^ c <= 14680064) \/ - c = e2 - 2 ->
  load_factor_exceeded n b = false.
Proof.
  intros Hb Hc Hn Hcase. unfold load_factor_exceeded.
  rewrite Hb, (float_of_uint_exact n c Hc Hn).
  apply quotient_not_above; rewrite Z2Pos.id by lia; [done|lia].
Qed.

Lemma below_25 n b :
  float_of_uint b = S754_finite false 10485760 2 ->
  2 ^ 24 <= Z.of_N n <= 29360128 ->
  load_factor_exceeded n b = false.
Proof.
  intros Hb Hn. unfold load_factor_exceeded.
  destruct (float_of_uint_25 n Hn) as (m & -> & Hm). rewrite Hb.
  apply quotient_not_above; lia.
Qed.

Ltac below_threshold b n :=
  let Hb := fresh "Hb" in
  let k := eval vm_compute in (Z.of_N (N.log2 (b / 10))) in
  let e2 := eval vm_compute in (k - 20) in
  let c2 := eval vm_compute in (22 - k) in
  let c1 := eval vm_compute in (21 - k) in
  let mid := eval vm_compute in (2 ^ (k + 2)) in
  assert (float_of_uint b = S754_finite false 10485760 e2)
    as Hb by (vm_compute; reflexivity);
  destruct (Z.lt_ge_cases (Z.of_N n) mid);
  [ apply (below_exact n b e2 c2 Hb); lia
  | first
      [ apply (below_exact n b e2 c1 Hb); lia
      | apply (below_25 n b Hb); lia ] ].

Lemma ten_buckets_checked :
  forallb (λ n, negb (load_factor_exceeded n 10))
          [0; 1; 2; 3; 4; 5; 6; 7]%N = true.
Proof. vm_compute. reflexivity. Qed.

(** With one of the bucket counts [b], an item count of at most 7/10 of
    [b], and of more than half of that unless [b] is 10, does not pass the
    binary32 test. *)
Lemma load_not_exceeded (b n : N) :
  b ∈ bucket_counts -> (10 * n <= 7 * b)%N ->
  b = 10%N \/ (7 * b < 20 * n)%N ->
  load_factor_exceeded n b = false.
Proof.
  intros Hb Hle Hhalf. unfold bucket_counts in Hb.
  apply elem_of_cons in Hb as [->|Hb].
  - pose proof ten_buckets_checked as Hall. rewrite forallb_forall in Hall.
    apply negb_true_iff, Hall. simpl. lia.
  - destruct Hhalf as [->|Hhalf].
    { apply list_elem_of_In in Hb. simpl in Hb. lia. }
    repeat (apply elem_of_cons in Hb as [->|Hb]);
      [..|by apply not_elem_of_nil in Hb].
    all: match goal with |- load_factor_exceeded ?n ?b = false =>
           below_threshold b n end.
Qed.

Lemma thresholds_checked :
  forallb (λ b, (b =? 41943040)%N
                || load_factor_exceeded (7 * (b / 10) + 1) b)
          bucket_counts = true.
Proof. vm_compute. reflexivity. Qed.

(** With one of the bucket counts [b] below 41943040, the first item
    count above 7/10 of [b] passes the binary32 test. *)
Lemma load_exceeded (b n : N) :
  b ∈ bucket_counts -> b <> 41943040%N -> (10 * n = 7 * b + 10)%N ->
  load_factor_exceeded n b = true.
Proof.
  intros Hb Hne Hn. pose proof thresholds_checked as Hall.
  rewrite forallb_forall in Hall.
  specialize (Hall b (proj1 (list_elem_of_In _ _) Hb)).
  apply orb_true_iff in Hall as [Heq|Hall]; [apply N.eqb_eq in Heq; done|].
  replace n with (7 * (b / 10) + 1)%N; [done|].
  unfold bucket_counts in Hb.
  repeat (apply elem_of_cons in Hb as [->|Hb]);
    [..|by apply not_elem_of_nil in Hb].
  all: match goal with |- ?v = ?x =>
         let v' := eval vm_compute in v in change (v' = x) end; lia.
Qed.

Lemma bucket_counts_double (b : N) :
  b ∈ bucket_counts ->
  (10 <= b <= 41943040)%N /\
  (b <> 41943040%N -> (2 * b)%N ∈ bucket_counts).
Proof.
  intros Hb. apply list_elem_of_In in Hb. simpl in Hb.
  split; [lia|]. intros Hne. apply list_elem_of_In. simpl. lia.
Qed.

End LoadFactor.

(** The rounding of [float] at work: from 2^24 on, odd item counts are
    not representable. *)
Example float_of_uint_rounds :
  float_of_uint 16777216 = S754_finite false 8388608 1 /\
  float_of_uint 16777217 = float_of_uint 16777216 /\
  float_of_uint 29360129 = float_of_uint 29360128.
Proof. vm_compute. split_and!; reflexivity. Qed.

(** The doublings of a table that receives one insert after the other:
    with 10 * 2^k buckets the test fails for 7 * 2^k items and succeeds
    for one more, for every k up to 21. *)
Example doubling_thresholds :
  forallb (λ k, negb (load_factor_exceeded (7 * 2 ^ k) (10 * 2 ^ k))
                && load_factor_exceeded (7 * 2 ^ k + 1) (10 * 2 ^ k))
          (N.of_nat <$> seq 0 22) = true.
Proof. vm_compute. reflexivity. Qed.

(** ** The bucket array *)

Lemma chain_at_replicate n i : chain_at (replicate n None) i = [].
Proof.
  unfold chain_at.
  destruct ((replicate n None : buckets) !! N.to_nat i) as [slot|] eqn:E;
    [|done].
  apply lookup_replicate in E as [-> _]. done.
Qed.

Lemma chain_at_out arr i : (length arr <= N.to_nat i)%nat -> chain_at arr i = [].
Proof.
  intros H. unfold chain_at. by rewrite (lookup_ge_None_2 arr _ H).
Qed.

Lemma chain_at_store_eq arr i chain :
  (N.to_nat i < length arr)%nat ->
  chain_at (<[N.to_nat i := Some chain]> arr) i = chain.
Proof.
  intros H. unfold chain_at. by rewrite list_lookup_insert_eq.
Qed.

Lemma chain_at_store_ne arr i j chain :
  i <> j -> chain_at (<[N.to_nat i := Some chain]> arr) j = chain_at arr j.
Proof.
  intros H. unfold chain_at. rewrite list_lookup_insert_ne; [done|lia].
Qed.

Lemma push_back_at_in_range arr i w :
  (N.to_nat i < length arr)%nat ->
  push_back_at arr i w
  = Some (<[N.to_nat i := Some (chain_at arr i ++ [w])]> arr).
Proof.
  intros H. unfold push_back_at, chain_at.
  destruct (lookup_lt_is_Some_2 arr _ H) as [slot ->]. simpl.
  by destruct slot.
Qed.

Lemma push_back_at_out_of_range arr i w :
  (length arr <= N.to_nat i)%nat -> push_back_at arr i w = None.
Proof.
  intros H. unfold push_back_at. by rewrite (lookup_ge_None_2 arr _ H).
Qed.

Lemma all_words_cons slot arr :
  all_words (slot :: arr) = default [] slot ++ all_words arr.
Proof. reflexivity. Qed.

Lemma all_words_replicate n : all_words (replicate n None) = [].
Proof. induction n as [|n IH]; [done|]. simpl. by rewrite all_words_cons, IH. Qed.

Lemma all_words_store (arr : buckets) (i : nat) (slot : option (list str)) w :
  arr !! i = Some slot ->
  all_words (<[i := Some (default [] slot ++ [w])]> arr)
  ≡ₚ w :: all_words arr.
Proof.
  revert i. induction arr as [|x arr IH]; intros [|i] H; simplify_eq/=.
  - rewrite !all_words_cons. simpl.
    rewrite <- app_assoc. simpl.
    by rewrite <- Permutation_middle.
  - rewrite !all_words_cons, (IH i H).
    by rewrite <- Permutation_middle.
Qed.

Lemma all_words_push arr i w arr' :
  push_back_at arr i w = Some arr' -> all_words arr' ≡ₚ w :: all_words arr.
Proof.
  unfold push_back_at. intros H.
  destruct (arr !! N.to_nat i) as [slot|] eqn:E; simplify_eq/=.
  by apply all_words_store.
Qed.

Lemma all_words_store_chain arr i w :
  (N.to_nat i < length arr)%nat ->
  all_words (<[N.to_nat i := Some (chain_at arr i ++ [w])]> arr)
  ≡ₚ w :: all_words arr.
Proof.
  intros H. eapply all_words_push. by apply push_back_at_in_range.
Qed.

Lemma elem_of_all_words (arr : buckets) w :
  w ∈ all_words arr <-> exists i, w ∈ chain_at arr i.
Proof.
  unfold all_words, chain_at. rewrite list_elem_of_join. split.
  - intros (c & Hw & Hc). apply list_elem_of_fmap in Hc as (slot & -> & Hs).
    apply list_elem_of_lookup in Hs as [n Hn].
    exists (N.of_nat n). rewrite Nat2N.id, Hn.
    destruct slot; [done|]. by apply not_elem_of_nil in Hw.
  - intros [i Hi].
    destruct (arr !! N.to_nat i) as [[c|]|] eqn:E;
      try by apply not_elem_of_nil in Hi.
    exists c. split; [done|]. apply list_elem_of_fmap.
    exists (Some c). split; [done|]. by eapply list_elem_of_lookup_2.
Qed.

Lemma filter_none (P : str -> Prop) `{!forall w, Decision (P w)}
    (l : list str) :
  (forall w, w ∈ l -> ~ P w) -> filter P l = [].
Proof.
  intros Hall. induction l as [|w l IH]; [done|].
  rewrite filter_cons_False; [|apply Hall; left].
  apply IH. intros v Hv. apply Hall. by right.
Qed.

(** When the words that satisfy [P] can only be in bucket [i], filtering
    all the stored words by [P] yields the words of that chain that
    satisfy [P], in chain order. *)
Lemma filter_all_words_one (P : str -> Prop) `{!forall w, Decision (P w)}
    (arr : buckets) (i : nat) :
  (forall j slot w,
      arr !! j = Some slot -> w ∈ default [] slot -> P w -> j = i) ->
  filter P (all_words arr) = filter P (default [] (default None (arr !! i))).
Proof.
  revert i. induction arr as [|x arr IH]; intros i Hone; [by destruct i|].
  rewrite all_words_cons, filter_app. destruct i as [|i]; simpl.
  - rewrite (filter_none P (all_words arr)); [by rewrite app_nil_r|].
    intros w Hw HP. apply elem_of_all_words in Hw as [j Hj].
    unfold chain_at in Hj.
    destruct (arr !! N.to_nat j) as [slot|] eqn:E;
      [|by apply not_elem_of_nil in Hj].
    specialize (Hone (S (N.to_nat j)) slot w E).
    destruct slot as [c|]; [|by apply not_elem_of_nil in Hj].
    by specialize (Hone Hj HP).
  - rewrite <- (IH i).
    + rewrite (filter_none P (default [] x)); [done|].
      intros w Hw HP. by specialize (Hone 0%nat x w eq_refl Hw HP).
    + intros j slot w Hj Hw HP. specialize (Hone (S j) slot w Hj Hw HP). lia.
Qed.

Lemma chain_at_default arr i :
  chain_at arr i = default [] (default None (arr !! N.to_nat i)).
Proof. unfold chain_at. by destruct (arr !! N.to_nat i) as [[c|]|]. Qed.

Lemma filter_all_words_chain (P : str -> Prop) `{!forall w, Decision (P w)}
    (arr : buckets) (i : N) :
  (forall j w, w ∈ chain_at arr j -> P w -> j = i) ->
  filter P (all_words arr) = filter P (chain_at arr i).
Proof.
  intros Hone. rewrite chain_at_default.
  apply filter_all_words_one. intros j slot w Hj Hw HP.
  assert (N.of_nat j = i) as <-; [|by rewrite Nat2N.id].
  apply (Hone _ w); [|done].
  by rewrite chain_at_default, Nat2N.id, Hj.
Qed.

Lemma foldl_record_visit (l seen : list str) :
  foldl (λ wd it, record_visit it wd) seen l = seen ++ l.
Proof.
  revert seen. induction l as [|w l IH]; intros seen; simpl.
  - by rewrite app_nil_r.
  - rewrite IH. unfold record_visit. by rewrite <- app_assoc.
Qed.

(** The loop of [lookup] calls the callback on the words of the chain
    whose sorted form is the query key, in chain order. *)
Lemma visit_chain_matching {W : Type} (cb : str -> W -> W) k chain world :
  visit_chain cb k chain world
  = foldl (λ wd it, cb it wd) world (matching k chain).
Proof.
  unfold visit_chain, matching. revert world.
  induction chain as [|w chain IH]; intros world; [done|].
  rewrite filter_cons. simpl. destruct (decide (std_sort w = k)); simpl; apply IH.
Qed.

Section Correctness.

Variable strhash : str -> N.

Lemma bucket_of_lt B key : B <> 0 -> bucket_of strhash B key < B.
Proof.
  intros HB. unfold bucket_of, uint32.
  pose proof (N.mod_lt (strhash key) B HB).
  pose proof (N.Div0.mod_le (strhash key mod B) (2 ^ 32)). lia.
Qed.

Lemma hash_Some B key :
  B <> 0 -> hash strhash B key = Some (bucket_of strhash B key).
Proof.
  intros HB. unfold hash. by apply N.eqb_neq in HB as ->.
Qed.

(** ** Rehashing *)

Lemma transfer_word_spec B arr w :
  B <> 0 -> length arr = N.to_nat B ->
  transfer_word strhash B arr w
  = Some (<[N.to_nat (bucket_of strhash B (std_sort w))
            := Some (chain_at arr (bucket_of strhash B (std_sort w)) ++ [w])]>
          arr).
Proof.
  intros HB Hlen. unfold transfer_word. rewrite hash_Some by done. simpl.
  apply push_back_at_in_range.
  pose proof (bucket_of_lt B (std_sort w) HB). lia.
Qed.

Lemma transfer_chain_spec B chain arr :
  B <> 0 -> length arr = N.to_nat B ->
  exists arr',
    transfer_chain strhash B chain arr = Some arr' /\
    length arr' = N.to_nat B /\
    (forall j, chain_at arr' j
               = chain_at arr j
                 ++ filter (λ w, bucket_of strhash B (std_sort w) = j) chain) /\
    all_words arr' ≡ₚ all_words arr ++ chain.
Proof.
  intros HB. revert arr. induction chain as [|w chain IH]; intros arr Hlen.
  - exists arr. split_and!; [done..| |by rewrite app_nil_r].
    intros j. by rewrite filter_nil, app_nil_r.
  - simpl. pose proof (transfer_word_spec B arr w HB Hlen) as Hw.
    rewrite Hw. simpl.
    set (i := bucket_of strhash B (std_sort w)) in *.
    assert (N.to_nat i < length arr)%nat as Hi
      by (pose proof (bucket_of_lt B (std_sort w) HB); lia).
    destruct (IH (<[N.to_nat i := Some (chain_at arr i ++ [w])]> arr))
      as (arr' & Hrun & Hlen' & Hchains & Hall).
    { by rewrite length_insert. }
    exists arr'. split_and!; [done..| |].
    + intros j. rewrite Hchains, filter_cons. fold i.
      destruct (decide (i = j)) as [<-|Hne].
      * rewrite chain_at_store_eq by done. by rewrite <- app_assoc.
      * by rewrite chain_at_store_ne.
    + rewrite Hall, all_words_store_chain by done.
      by rewrite <- Permutation_middle.
Qed.

Lemma transfer_spec B old arr :
  B <> 0 -> length arr = N.to_nat B ->
  exists arr',
    transfer strhash B old arr = Some arr' /\
    length arr' = N.to_nat B /\
    (forall j, chain_at arr' j
               = chain_at arr j
                 ++ filter (λ w, bucket_of strhash B (std_sort w) = j)
                      (all_words old)) /\
    all_words arr' ≡ₚ all_words arr ++ all_words old.
Proof.
  intros HB. revert arr. induction old as [|slot old IH]; intros arr Hlen.
  - exists arr. change (all_words []) with (@nil str).
    split_and!; [done..| |by rewrite app_nil_r].
    intros j. by rewrite filter_nil, app_nil_r.
  - simpl. rewrite all_words_cons.
    destruct (transfer_chain_spec B (default [] slot) arr HB Hlen)
      as (arr1 & Hrun1 & Hlen1 & Hchains1 & Hall1).
    assert (match slot with
            | Some chain => transfer_chain strhash B chain arr
            | None => Some arr
            end = Some arr1) as ->.
    { destruct slot; [done|]. simpl in Hrun1. done. }
    simpl. destruct (IH arr1 Hlen1) as (arr' & Hrun & Hlen' & Hchains & Hall).
    exists arr'. split_and!; [done..| |].
    + intros j. by rewrite Hchains, Hchains1, filter_app, app_assoc.
    + by rewrite Hall, Hall1, app_assoc.
Qed.

(** ** [tryRehash] *)

Lemma tryRehash_unchanged t : grows t = false -> tryRehash strhash t = Some t.
Proof. unfold grows, tryRehash. by intros ->. Qed.

Lemma doubled_fits t :
  wf strhash t -> m_B t < m_maxB t -> uint32 (2 * m_B t) = 2 * m_B t.
Proof.
  intros Hwf Hlt. unfold uint32. apply N.mod_small.
  pose proof (wf_maxB_int _ _ Hwf). lia.
Qed.

Lemma tryRehash_grown t :
  wf strhash t -> grows t = true ->
  exists t',
    tryRehash strhash t = Some t' /\
    m_maxB t' = m_maxB t /\ m_N t' = m_N t /\
    m_B t' = N.min (2 * m_B t) (m_maxB t) /\
    length (m_words t') = N.to_nat (m_B t') /\
    (forall j, chain_at (m_words t') j
               = filter (λ w, bucket_of strhash (m_B t') (std_sort w) = j)
                   (all_words (m_words t))) /\
    all_words (m_words t') ≡ₚ all_words (m_words t).
Proof.
  intros Hwf Hg. unfold tryRehash. fold (grows t). rewrite Hg. cbv zeta.
  apply andb_true_iff in Hg as [Hlt _]. apply N.ltb_lt in Hlt.
  rewrite take_ge by (rewrite (wf_length _ _ Hwf); lia).
  rewrite (doubled_fits t Hwf Hlt).
  set (newB := if 2 * m_B t <? m_maxB t then 2 * m_B t else m_maxB t).
  assert (newB = N.min (2 * m_B t) (m_maxB t)) as HnewB.
  { unfold newB. destruct (2 * m_B t <? m_maxB t) eqn:E.
    - apply N.ltb_lt in E. lia.
    - apply N.ltb_ge in E. lia. }
  pose proof (wf_B_pos _ _ Hwf) as Hpos.
  destruct (transfer_spec newB (m_words t) (replicate (N.to_nat newB) None))
    as (arr' & Hrun & Hlen & Hchains & Hall).
  { lia. }
  { by rewrite length_replicate. }
  rewrite Hrun. simpl. eexists. split; [done|]. simpl.
  split_and!; [done..| |].
  - intros j. by rewrite Hchains, chain_at_replicate.
  - by rewrite Hall, all_words_replicate.
Qed.

Lemma tryRehash_spec t :
  wf strhash t ->
  exists t',
    tryRehash strhash t = Some t' /\ wf strhash t' /\
    m_maxB t' = m_maxB t /\ m_N t' = m_N t /\
    m_B t' = (if grows t then N.min (2 * m_B t) (m_maxB t) else m_B t) /\
    (forall ws, holds strhash t ws -> holds strhash t' ws) /\
    all_words (m_words t') ≡ₚ all_words (m_words t).
Proof.
  intros Hwf. destruct (grows t) eqn:Hg.
  - destruct (tryRehash_grown t Hwf Hg)
      as (t' & Hrun & HmaxB & HN & HB & Hlen & Hchains & Hall).
    pose proof Hwf as [Hpos Hmax Hint Huint _ Hplaced].
    apply andb_true_iff in Hg as [Hlt _]. apply N.ltb_lt in Hlt.
    exists t'. split_and!; try done.
    + constructor; rewrite ?HmaxB, ?HN, ?HB; try done; try lia.
      intros i w Hw. rewrite Hchains in Hw.
      apply list_elem_of_filter in Hw as [Hw _]. by rewrite <- HB.
    + intros ws Hholds k Hk. rewrite <- (Hholds k Hk), Hchains.
      unfold matching. rewrite list_filter_filter.
      rewrite <- (filter_all_words_chain (λ w, std_sort w = k) (m_words t)
                    (bucket_of strhash (m_B t) k)).
      * apply list_filter_iff. intros w. split; [tauto|].
        intros Hw. split; [done|]. by rewrite Hw.
      * intros j w Hw <-. symmetry. by apply Hplaced.
  - exists t. rewrite (tryRehash_unchanged t Hg). by split_and!.
Qed.

(** ** [insert] *)

Lemma insert_steps t w :
  insert strhash t w
  = t1 ← tryRehash strhash (increment_N t); store strhash t1 w.
Proof. reflexivity. Qed.

Lemma store_letterless t w : removeNonLetters w = [] -> store strhash t w = Some t.
Proof. intros H. unfold store. by rewrite decide_True. Qed.

Lemma store_spec t w :
  wf strhash t ->
  exists t',
    store strhash t w = Some t' /\ wf strhash t' /\
    m_maxB t' = m_maxB t /\ m_N t' = m_N t /\ m_B t' = m_B t /\
    (forall j, chain_at (m_words t') j
               = chain_at (m_words t) j
                 ++ filter (λ v, bucket_of strhash (m_B t) (std_sort v) = j)
                      (stored_form w)) /\
    all_words (m_words t') ≡ₚ stored_form w ++ all_words (m_words t).
Proof.
  intros Hwf. pose proof Hwf as [Hpos Hmax Hint Huint Hlen Hplaced].
  unfold store, stored_form.
  destruct (decide (removeNonLetters w = [])) as [Hw|Hw].
  - exists t. split_and!; try done.
    intros j. by rewrite filter_nil, app_nil_r.
  - rewrite hash_Some by lia. simpl.
    set (word := removeNonLetters w) in *.
    set (i := bucket_of strhash (m_B t) (std_sort word)).
    assert (N.to_nat i < length (m_words t))%nat as Hi.
    { pose proof (bucket_of_lt (m_B t) (std_sort word)). lia. }
    rewrite push_back_at_in_range by done. simpl.
    assert (forall j,
      chain_at (<[N.to_nat i := Some (chain_at (m_words t) i ++ [word])]>
                (m_words t)) j
      = chain_at (m_words t) j
        ++ filter (λ v, bucket_of strhash (m_B t) (std_sort v) = j) [word])
      as Hchains.
    { intros j. rewrite filter_cons, filter_nil. fold i.
      destruct (decide (i = j)) as [<-|Hne].
      - by rewrite chain_at_store_eq.
      - by rewrite chain_at_store_ne, app_nil_r. }
    eexists. split; [done|]. simpl. split_and!; try done.
    + constructor; simpl; try done.
      * by rewrite length_insert.
      * intros j v Hv. rewrite Hchains in Hv.
        apply elem_of_app in Hv as [Hv|Hv]; [by apply Hplaced|].
        by apply list_elem_of_filter in Hv as [Hv _].
    + by apply all_words_store_chain.
Qed.

Lemma matching_stored_form k w :
  k <> [] -> matching k (stored_form w) = matching k [removeNonLetters w].
Proof.
  intros Hk. unfold stored_form, matching.
  destruct (decide (removeNonLetters w = [])) as [->|]; [|done].
  by rewrite filter_cons_False.
Qed.

Lemma store_holds t w t' ws :
  wf strhash t -> store strhash t w = Some t' ->
  holds strhash t ws -> holds strhash t' (ws ++ [w]).
Proof.
  intros Hwf Hrun Hholds k Hk.
  destruct (store_spec t w Hwf) as (t1 & Hrun1 & _ & _ & _ & HB & Hchains & _).
  rewrite Hrun in Hrun1. injection Hrun1 as <-.
  pose proof (Hholds k Hk) as Hkeep.
  rewrite Hchains, HB, fmap_app. unfold matching in *.
  rewrite !filter_app, Hkeep. f_equal.
  rewrite list_filter_filter. simpl.
  fold (matching k (stored_form w)) (matching k [removeNonLetters w]).
  rewrite <- matching_stored_form by done. unfold matching.
  apply list_filter_iff. intros v. split; [tauto|].
  intros Hv. split; [done|]. by rewrite Hv.
Qed.

Lemma increment_N_wf t : wf strhash t -> wf strhash (increment_N t).
Proof.
  intros [Hpos Hmax Hint Huint Hlen Hplaced]. constructor; simpl; try done.
  unfold uint32. apply N.mod_lt. lia.
Qed.

Lemma increment_N_holds t ws :
  holds strhash t ws -> holds strhash (increment_N t) ws.
Proof. done. Qed.

(** [insert] succeeds on a well-formed table; the lemma collects what one
    call does. *)
Lemma insert_spec t w :
  wf strhash t ->
  exists t',
    insert strhash t w = Some t' /\ wf strhash t' /\
    m_maxB t' = m_maxB t /\
    m_N t' = uint32 (m_N t + 1) /\
    m_B t' = (if grows (increment_N t)
              then N.min (2 * m_B t) (m_maxB t) else m_B t) /\
    (forall ws, holds strhash t ws -> holds strhash t' (ws ++ [w])) /\
    all_words (m_words t') ≡ₚ stored_form w ++ all_words (m_words t).
Proof.
  intros Hwf. unfold insert.
  destruct (tryRehash_spec (increment_N t) (increment_N_wf t Hwf))
    as (t2 & Hrun2 & Hwf2 & HmaxB2 & HN2 & HB2 & Hholds2 & Hall2).
  rewrite Hrun2. simpl.
  destruct (store_spec t2 w Hwf2)
    as (t' & Hrun & Hwf' & HmaxB & HN & HB & Hchains & Hall).
  exists t'. split_and!; try done.
  - by rewrite HmaxB, HmaxB2.
  - by rewrite HN, HN2.
  - by rewrite HB, HB2.
  - intros ws Hholds. apply (store_holds t2 w t' ws Hwf2 Hrun).
    by apply Hholds2, increment_N_holds.
  - by rewrite Hall, Hall2.
Qed.

Lemma insert_B_mono t w t' :
  wf strhash t -> insert strhash t w = Some t' -> m_B t <= m_B t'.
Proof.
  intros Hwf Hrun.
  destruct (insert_spec t w Hwf) as (t1 & Hrun1 & _ & _ & _ & HB & _).
  rewrite Hrun in Hrun1. injection Hrun1 as <-. rewrite HB.
  destruct (grows (increment_N t)) eqn:Hg; [|done].
  apply andb_true_iff in Hg as [Hlt _]. apply N.ltb_lt in Hlt.
  simpl in Hlt. lia.
Qed.

(** ** [lookup] *)

Lemma lookup_spec {W : Type} t q (cb : str -> W -> W) (world : W) :
  wf strhash t ->
  lookup strhash t q (Some cb) world
  = Some (t, foldl (λ wd it, cb it wd) world (answers strhash t q)).
Proof.
  intros Hwf. unfold lookup, answers.
  destruct (decide (removeNonLetters q = [])) as [Hq|Hq]; [done|].
  pose proof (wf_B_pos _ _ Hwf) as Hpos.
  rewrite hash_Some by lia. simpl. fold (canonical q).
  set (i := bucket_of strhash (m_B t) (canonical q)).
  assert (N.to_nat i < length (m_words t))%nat as Hi.
  { pose proof (bucket_of_lt (m_B t) (canonical q)).
    rewrite (wf_length _ _ Hwf). lia. }
  unfold chain_at. destruct (lookup_lt_is_Some_2 _ _ Hi) as [slot ->]. simpl.
  destruct slot as [chain|]; [|done].
  by rewrite visit_chain_matching.
Qed.

Lemma visited_spec t q : wf strhash t -> visited strhash t q = Some (answers strhash t q).
Proof.
  intros Hwf. unfold visited. rewrite lookup_spec by done. simpl.
  by rewrite foldl_record_visit.
Qed.

(** ** Built tables *)

Lemma DictionaryImpl_new_fields max_buckets :
  (1 <= max_buckets <= INT_MAX)%Z ->
  m_maxB (DictionaryImpl_new max_buckets) = Z.to_N max_buckets /\
  m_B (DictionaryImpl_new max_buckets) = N.min 10 (Z.to_N max_buckets) /\
  m_N (DictionaryImpl_new max_buckets) = 0.
Proof.
  unfold INT_MAX. intros H. unfold DictionaryImpl_new. simpl.
  rewrite Z.mod_small by lia. split_and!; [done| |done].
  destruct (10 <? Z.to_N max_buckets) eqn:E.
  - apply N.ltb_lt in E. lia.
  - apply N.ltb_ge in E. lia.
Qed.

Lemma DictionaryImpl_new_wf max_buckets :
  (1 <= max_buckets <= INT_MAX)%Z -> wf strhash (DictionaryImpl_new max_buckets).
Proof.
  intros H. destruct (DictionaryImpl_new_fields _ H) as (HmaxB & HB & HN).
  unfold INT_MAX in H.
  constructor.
  - rewrite HB. lia.
  - rewrite HB, HmaxB. lia.
  - rewrite HmaxB. lia.
  - rewrite HN. lia.
  - unfold DictionaryImpl_new. simpl. by rewrite length_replicate.
  - intros i w Hw. unfold DictionaryImpl_new in Hw. simpl in Hw.
    rewrite chain_at_replicate in Hw. by apply not_elem_of_nil in Hw.
Qed.

Lemma DictionaryImpl_new_holds max_buckets :
  holds strhash (DictionaryImpl_new max_buckets) [].
Proof.
  intros k _. unfold DictionaryImpl_new. simpl.
  by rewrite chain_at_replicate.
Qed.

Lemma insert_all_app t ws1 ws2 :
  insert_all strhash t (ws1 ++ ws2)
  = t1 ← insert_all strhash t ws1; insert_all strhash t1 ws2.
Proof.
  revert t. induction ws1 as [|w ws1 IH]; intros t; simpl; [done|].
  destruct (insert strhash t w) as [t'|]; simpl; [apply IH|done].
Qed.

Lemma insert_all_spec t ws0 ws :
  wf strhash t -> holds strhash t ws0 ->
  exists t',
    insert_all strhash t ws = Some t' /\ wf strhash t' /\
    holds strhash t' (ws0 ++ ws) /\
    m_maxB t' = m_maxB t /\ m_B t <= m_B t' /\
    all_words (m_words t') ≡ₚ all_words (m_words t) ++ (ws ≫= stored_form).
Proof.
  revert t ws0. induction ws as [|w ws IH]; intros t ws0 Hwf Hholds; simpl.
  - exists t. rewrite !app_nil_r. by split_and!.
  - destruct (insert_spec t w Hwf)
      as (t1 & Hrun1 & Hwf1 & HmaxB1 & _ & _ & Hholds1 & Hall1).
    rewrite Hrun1. simpl.
    destruct (IH t1 (ws0 ++ [w]) Hwf1 (Hholds1 ws0 Hholds))
      as (t' & Hrun & Hwf' & Hholds' & HmaxB & HB & Hall).
    exists t'. split_and!; try done.
    + by rewrite <- app_assoc in Hholds'.
    + congruence.
    + pose proof (insert_B_mono t w t1 Hwf Hrun1). lia.
    + rewrite Hall, Hall1.
      rewrite (Permutation_app_comm (stored_form w)), <- app_assoc. done.
Qed.

(** Every sequence of [insert] calls on a fresh table succeeds. *)
Lemma built_total max_buckets ws :
  (1 <= max_buckets <= INT_MAX)%Z -> exists t, built strhash max_buckets ws t.
Proof.
  intros H.
  destruct (insert_all_spec (DictionaryImpl_new max_buckets) [] ws
              (DictionaryImpl_new_wf _ H) (DictionaryImpl_new_holds _))
    as (t & Hrun & _).
  exists t. by split.
Qed.

(** A built table is well formed and holds the words it was given. *)
Lemma built_inv max_buckets ws t :
  built strhash max_buckets ws t -> wf strhash t /\ holds strhash t ws.
Proof.
  intros [H Hrun].
  destruct (insert_all_spec (DictionaryImpl_new max_buckets) [] ws
              (DictionaryImpl_new_wf _ H) (DictionaryImpl_new_holds _))
    as (t1 & Hrun1 & Hwf & Hholds & _).
  rewrite Hrun in Hrun1. injection Hrun1 as <-. done.
Qed.

Lemma built_fields max_buckets ws t :
  built strhash max_buckets ws t ->
  m_maxB t = Z.to_N max_buckets /\ N.min 10 (Z.to_N max_buckets) <= m_B t.
Proof.
  intros [H Hrun].
  destruct (insert_all_spec (DictionaryImpl_new max_buckets) [] ws
              (DictionaryImpl_new_wf _ H) (DictionaryImpl_new_holds _))
    as (t1 & Hrun1 & _ & _ & HmaxB & HB & _).
  rewrite Hrun in Hrun1. injection Hrun1 as <-.
  destruct (DictionaryImpl_new_fields _ H) as (HmaxB0 & HB0 & _).
  rewrite HmaxB, HmaxB0. split; [done|]. by rewrite <- HB0.
Qed.

(** The words in the buckets of a built table are the letters-only forms
    of the inserted words that have a letter. *)
Lemma built_contents max_buckets ws t :
  built strhash max_buckets ws t ->
  all_words (m_words t) ≡ₚ ws ≫= stored_form.
Proof.
  intros [H Hrun].
  destruct (insert_all_spec (DictionaryImpl_new max_buckets) [] ws
              (DictionaryImpl_new_wf _ H) (DictionaryImpl_new_holds _))
    as (t1 & Hrun1 & _ & _ & _ & _ & Hall).
  rewrite Hrun in Hrun1. injection Hrun1 as <-.
  rewrite Hall. unfold DictionaryImpl_new. simpl.
  by rewrite all_words_replicate.
Qed.

Lemma built_stored max_buckets ws t i v :
  built strhash max_buckets ws t -> v ∈ chain_at (m_words t) i ->
  v <> [] /\ exists w, w ∈ ws /\ v = removeNonLetters w.
Proof.
  intros Hb Hv.
  assert (v ∈ all_words (m_words t)) as Hin
    by (apply elem_of_all_words; by exists i).
  rewrite (built_contents _ _ _ Hb) in Hin.
  apply list_elem_of_bind in Hin as (w & Hvw & Hw).
  unfold stored_form in Hvw.
  destruct (decide (removeNonLetters w = [])) as [|Hne];
    [by apply not_elem_of_nil in Hvw|].
  apply list_elem_of_singleton in Hvw as ->. split; [done|]. by exists w.
Qed.

Lemma built_insert max_buckets ws t w t' :
  built strhash max_buckets ws t -> insert strhash t w = Some t' ->
  built strhash max_buckets (ws ++ [w]) t'.
Proof.
  intros [H Hrun] Hins. split; [done|].
  rewrite insert_all_app, Hrun. simpl. by rewrite Hins.
Qed.

Lemma matching_fmap_removeNonLetters k ws :
  matching k (removeNonLetters <$> ws)
  = removeNonLetters <$> filter (λ w, canonical w = k) ws.
Proof.
  unfold matching. induction ws as [|w ws IH]; [done|].
  rewrite fmap_cons, !filter_cons. fold (canonical w).
  destruct (decide (canonical w = k)); by rewrite IH.
Qed.

(** On a built table, [lookup] reports the letters-only forms of the
    inserted words that are anagrams of the query, in insertion order. *)
Lemma built_visited max_buckets ws t q :
  built strhash max_buckets ws t ->
  visited strhash t q
  = Some (if decide (canonical q = []) then []
          else removeNonLetters <$> anagrams q ws).
Proof.
  intros Hb. destruct (built_inv _ _ _ Hb) as [Hwf Hholds].
  rewrite visited_spec by done. unfold answers, anagrams. f_equal.
  destruct (decide (removeNonLetters q = [])) as [Hq|Hq].
  - rewrite decide_True; [done|]. by apply canonical_nil_iff.
  - assert (canonical q <> []) as Hk by (by rewrite canonical_nil_iff).
    rewrite decide_False by done.
    by rewrite (Hholds _ Hk), matching_fmap_removeNonLetters.
Qed.

(** For every callback, the calls of [lookup] on a built table are the
    calls on the words of [visited], in that order. *)
Lemma built_lookup {W : Type} max_buckets ws t q (cb : str -> W -> W) world :
  built strhash max_buckets ws t ->
  lookup strhash t q (Some cb) world
  = Some (t, foldl (λ wd it, cb it wd) world
               (if decide (canonical q = []) then []
                else removeNonLetters <$> anagrams q ws)).
Proof.
  intros Hb. destruct (built_inv _ _ _ Hb) as [Hwf _].
  pose proof (built_visited _ _ _ q Hb) as Hvis.
  rewrite visited_spec in Hvis by done. injection Hvis as <-.
  by apply lookup_spec.
Qed.

(** ** The growth schedule *)

(** One insert into a table that is on the schedule and can still grow:
    the binary32 test is the exact comparison of the load with 7/10, and
    the table stays on the schedule. This holds for tables of at most
    41943040 buckets and, for larger tables, for the first 29360128
    inserts. *)
Lemma schedule_step t w t' :
  wf strhash t -> on_schedule t -> m_B t < m_maxB t ->
  m_maxB t <= 41943040 \/ m_N t < 29360128 ->
  insert strhash t w = Some t' ->
  load_factor_exceeded (uint32 (m_N t + 1)) (m_B t)
  = load_above_seven_tenths (m_N t + 1) (m_B t) /\
  m_N t' = m_N t + 1 /\
  (m_B t' < m_maxB t' -> on_schedule t') /\
  (m_N t < 29360128 -> 83886080 <= m_maxB t ->
   m_B t' < m_maxB t' /\ m_B t' <= 41943040).
Proof.
  intros Hwf (Hin & Hn & Hhalf) Hlt Hrange Hrun.
  destruct (insert_spec t w Hwf) as (t1 & Hrun1 & _ & HmaxB & HN & HB & _).
  rewrite Hrun in Hrun1. injection Hrun1 as <-.
  unfold grows in HB. simpl in HB.
  destruct (bucket_counts_double _ Hin) as [Hb Hdouble].
  assert (uint32 (m_N t + 1) = m_N t + 1) as Hfits
    by (unfold uint32; apply N.mod_small; lia).
  rewrite Hfits in *. unfold load_above_seven_tenths.
  apply N.ltb_lt in Hlt as Hlt'. rewrite Hlt' in HB. simpl in HB.
  destruct (7 * m_B t <? 10 * (m_N t + 1)) eqn:Hcmp.
  - apply N.ltb_lt in Hcmp.
    assert (m_B t <> 41943040) as Hne by lia.
    assert (10 * (m_N t + 1) = 7 * m_B t + 10) as Hnext.
    { clear -Hin Hn Hcmp. apply list_elem_of_In in Hin. simpl in Hin. lia. }
    rewrite (load_exceeded _ _ Hin Hne Hnext) in *.
    specialize (Hdouble Hne).
    destruct (bucket_counts_double _ Hdouble) as [Hb2 _].
    split_and!; [done|done| |].
    + intros Hlt2. rewrite HmaxB in Hlt2. unfold on_schedule. rewrite HN.
      assert (m_B t' = 2 * m_B t) as -> by lia.
      split_and!; [done|lia|right; lia].
    + intros _ Hmax. rewrite HmaxB. lia.
  - apply N.ltb_ge in Hcmp.
    assert (load_factor_exceeded (m_N t + 1) (m_B t) = false) as Hfalse.
    { apply load_not_exceeded; [done|lia|].
      destruct Hhalf; [by left|right; lia]. }
    rewrite Hfalse in *. unfold on_schedule. rewrite HB, HN, HmaxB.
    split_and!; [done|done| |].
    + intros _. split_and!; [done|lia|]. destruct Hhalf; [by left|right; lia].
    + intros _ Hmax. lia.
Qed.

Lemma load_step t w t' :
  wf strhash t -> m_maxB t <= 41943040 -> load_bounded t ->
  insert strhash t w = Some t' -> load_bounded t'.
Proof.
  intros Hwf Hsmall Hload Hrun.
  destruct (N.lt_ge_cases (m_B t) (m_maxB t)) as [Hlt|Hge].
  - by destruct (schedule_step t w t' Hwf (Hload Hlt) Hlt (or_introl Hsmall)
                   Hrun) as (_ & _ & Hnext & _).
  - intros Hlt'.
    destruct (insert_spec t w Hwf) as (t1 & Hrun1 & _ & HmaxB & _ & HB & _).
    rewrite Hrun in Hrun1. injection Hrun1 as <-.
    unfold grows in HB. simpl in HB.
    apply N.ltb_ge in Hge as Hge'. rewrite Hge' in HB. simpl in HB. lia.
Qed.

Lemma DictionaryImpl_new_on_schedule max_buckets :
  (1 <= max_buckets <= INT_MAX)%Z ->
  load_bounded (DictionaryImpl_new max_buckets) /\
  (10 < Z.to_N max_buckets -> on_schedule (DictionaryImpl_new max_buckets)).
Proof.
  intros H. destruct (DictionaryImpl_new_fields _ H) as (HmaxB & HB & HN).
  assert (10 < Z.to_N max_buckets ->
          on_schedule (DictionaryImpl_new max_buckets)) as Hon.
  { intros Hlt. unfold on_schedule. rewrite HB, HN.
    replace (N.min 10 (Z.to_N max_buckets)) with 10 by lia.
    split_and!; [|lia|by left]. apply list_elem_of_In. simpl. lia. }
  split; [|done]. intros Hlt. apply Hon. lia.
Qed.

Lemma insert_all_load_bounded t ws t' :
  wf strhash t -> m_maxB t <= 41943040 -> load_bounded t ->
  insert_all strhash t ws = Some t' -> load_bounded t'.
Proof.
  revert t. induction ws as [|w ws IH]; intros t Hwf Hsmall Hload Hrun;
    simpl in Hrun.
  - by injection Hrun as <-.
  - destruct (insert_spec t w Hwf) as (t1 & Hrun1 & Hwf1 & HmaxB1 & _).
    rewrite Hrun1 in Hrun. simpl in Hrun.
    apply (IH t1); [done|by rewrite HmaxB1| |done].
    by apply (load_step t w).
Qed.

(** A table constructed with at most 41943040 buckets stays on the
    schedule as long as it can grow. *)
Lemma built_load_bounded max_buckets ws t :
  built strhash max_buckets ws t -> (max_buckets <= 41943040)%Z ->
  load_bounded t.
Proof.
  intros [H Hrun] Hsmall.
  destruct (DictionaryImpl_new_fields _ H) as (HmaxB & _).
  apply (insert_all_load_bounded (DictionaryImpl_new max_buckets) ws);
    [by apply DictionaryImpl_new_wf|rewrite HmaxB; lia| |done].
  by apply DictionaryImpl_new_on_schedule.
Qed.

(** The first 29360128 inserts into a table of at least 83886080 buckets
    follow the schedule, whatever the words. *)
Lemma insert_all_on_schedule t ws t' :
  wf strhash t -> 83886080 <= m_maxB t ->
  on_schedule t -> m_B t < m_maxB t ->
  m_N t + N.of_nat (length ws) <= 29360128 ->
  insert_all strhash t ws = Some t' ->
  on_schedule t' /\ m_B t' < m_maxB t' /\
  m_N t' = m_N t + N.of_nat (length ws).
Proof.
  revert t. induction ws as [|w ws IH];
    intros t Hwf Hmax Hon Hlt Hlen Hrun; simpl in Hrun.
  - injection Hrun as <-. simpl. split_and!; [done|done|lia].
  - destruct (insert_spec t w Hwf) as (t1 & Hrun1 & Hwf1 & HmaxB1 & _).
    rewrite Hrun1 in Hrun. simpl in Hrun. simpl length in Hlen.
    destruct (schedule_step t w t1 Hwf Hon Hlt) as (_ & HN1 & Hon1 & Hlt1);
      [right; lia|done|].
    destruct Hlt1 as [Hlt1 _]; [lia|done|].
    destruct (IH t1) as (Hon' & Hlt' & HN');
      [done|by rewrite HmaxB1|auto|done|lia|done|].
    split_and!; [done|done|]. rewrite HN', HN1. simpl length. lia.
Qed.

(** ** Inserts that store nothing *)

Lemma insert_letterless t w :
  removeNonLetters w = [] -> grows (increment_N t) = false ->
  insert strhash t w = Some (increment_N t).
Proof.
  intros Hw Hg. rewrite insert_steps, (tryRehash_unchanged _ Hg). simpl.
  by apply store_letterless.
Qed.



(** ** Anagram retrieval *)

Lemma visited_normal max_buckets ws t q vs v :
  built strhash max_buckets ws t -> visited strhash t q = Some vs -> v ∈ vs ->
  canonical q <> [] /\
  exists w, w ∈ ws /\ v = removeNonLetters w /\ canonical w = canonical q.
Proof.
  intros Hb Hvis Hv. rewrite (built_visited _ _ _ _ Hb) in Hvis.
  injection Hvis as <-.
  destruct (decide (canonical q = [])) as [|Hq];
    [by apply not_elem_of_nil in Hv|].
  split; [done|].
  apply list_elem_of_fmap in Hv as (w & -> & Hw).
  apply list_elem_of_filter in Hw as [Hkey Hw]. by exists w.
Qed.

Lemma insert_then_lookup max_buckets ws t w1 w2 :
  built strhash max_buckets ws t ->
  canonical w1 = canonical w2 -> canonical w1 <> [] ->
  exists t1 vs,
    insert strhash t w1 = Some t1 /\
    visited strhash t1 w2 = Some vs /\
    removeNonLetters w1 ∈ vs /\
    (w1 ∈ vs <-> removeNonLetters w1 = w1).
Proof.
  intros Hb Hkey Hne. destruct (built_inv _ _ _ Hb) as [Hwf _].
  destruct (insert_spec t w1 Hwf) as (t1 & Hrun & _).
  pose proof (built_insert _ _ _ _ _ Hb Hrun) as Hb1.
  exists t1, (removeNonLetters <$> anagrams w2 (ws ++ [w1])).
  assert (removeNonLetters w1
          ∈ removeNonLetters <$> anagrams w2 (ws ++ [w1])) as Hin.
  { apply list_elem_of_fmap_2, list_elem_of_filter. split; [done|].
    apply elem_of_app. right. by left. }
  split_and!; [done| |done|].
  - rewrite (built_visited _ _ _ _ Hb1). rewrite decide_False; [done|].
    by rewrite <- Hkey.
  - split; [|intros Heq; by rewrite <- Heq at 1].
    intros Hv. apply list_elem_of_fmap in Hv as (w & -> & _).
    apply removeNonLetters_idemp.
Qed.

(** C1, as amended. For two words with the same non-empty canonical key,
    after [insert(w1)] on a built table, [lookup(w2, visit)] calls [visit]
    with the letters-only lowercase form of [w1], the string that
    [removeNonLetters] leaves in [word] before it is stored; it calls
    [visit] with [w1] itself exactly when [w1] is made of lowercase letters
    only. The same holds with [w1] and [w2] exchanged. *)
Theorem lookup_finds_anagram max_buckets ws t w1 w2 :
  built strhash max_buckets ws t ->
  canonical w1 = canonical w2 -> canonical w1 <> [] ->
  (exists t1 vs,
      insert strhash t w1 = Some t1 /\
      visited strhash t1 w2 = Some vs /\
      removeNonLetters w1 ∈ vs /\
      (w1 ∈ vs <-> removeNonLetters w1 = w1)) /\
  (exists t2 vs,
      insert strhash t w2 = Some t2 /\
      visited strhash t2 w1 = Some vs /\
      removeNonLetters w2 ∈ vs /\
      (w2 ∈ vs <-> removeNonLetters w2 = w2)).
Proof.
  intros Hb Hkey Hne. split.
  - by apply (insert_then_lookup max_buckets ws).
  - apply (insert_then_lookup max_buckets ws); [done|done|]. by rewrite <- Hkey.
Qed.

(** ** Growth *)

Lemma built_placed max_buckets ws t i v :
  built strhash max_buckets ws t -> v ∈ chain_at (m_words t) i ->
  hash strhash (m_B t) (canonical v) = Some i.
Proof.
  intros Hb Hv. destruct (built_inv _ _ _ Hb) as [Hwf _].
  destruct (built_stored _ _ _ _ _ Hb Hv) as (_ & w & _ & ->).
  rewrite canonical_removeNonLetters.
  pose proof (wf_B_pos _ _ Hwf). rewrite hash_Some by lia.
  f_equal. by apply (wf_placed _ _ Hwf).
Qed.

(** C2. On every table built by a constructor call with a positive
    [maxBuckets] and any sequence of [insert] calls: the bucket count is at
    most [maxBuckets]; no further sequence of inserts decreases it; every
    stored word is in the bucket that its canonical key hashes to under the
    current bucket count, in particular after an insert that has made the
    table grow, which loses no stored word; and every inserted word with a
    letter is reported by [lookup] for each of its anagram queries,
    whatever growth events have happened since its insertion. *)
Theorem growth_keeps_table_consistent max_buckets ws t :
  built strhash max_buckets ws t ->
  m_maxB t = Z.to_N max_buckets /\
  m_B t <= m_maxB t /\
  (forall ws' t', insert_all strhash t ws' = Some t' -> m_B t <= m_B t') /\
  (forall i v, v ∈ chain_at (m_words t) i ->
               hash strhash (m_B t) (canonical v) = Some i) /\
  (forall w t', insert strhash t w = Some t' ->
     m_B t <= m_B t' <= m_maxB t' /\
     all_words (m_words t') ≡ₚ stored_form w ++ all_words (m_words t) /\
     forall i v, v ∈ chain_at (m_words t') i ->
                 hash strhash (m_B t') (canonical v) = Some i) /\
  (forall w q, w ∈ ws -> canonical w <> [] -> canonical q = canonical w ->
               exists vs, visited strhash t q = Some vs /\
                          removeNonLetters w ∈ vs).
Proof.
  intros Hb. destruct (built_inv _ _ _ Hb) as [Hwf Hholds].
  split_and!.
  - by destruct (built_fields _ _ _ Hb).
  - apply (wf_B_max _ _ Hwf).
  - intros ws' t' Hrun.
    destruct (insert_all_spec t ws ws' Hwf Hholds)
      as (t1 & Hrun1 & _ & _ & _ & HB & _).
    rewrite Hrun in Hrun1. by injection Hrun1 as <-.
  - intros i v. by apply (built_placed max_buckets ws).
  - intros w t' Hrun.
    pose proof (built_insert _ _ _ _ _ Hb Hrun) as Hb'.
    destruct (built_inv _ _ _ Hb') as [Hwf' _].
    destruct (insert_spec t w Hwf) as (t1 & Hrun1 & _ & _ & _ & _ & _ & Hall).
    rewrite Hrun in Hrun1. injection Hrun1 as <-.
    split_and!; [by apply (insert_B_mono t w)|apply (wf_B_max _ _ Hwf')|done|].
    intros i v. by apply (built_placed max_buckets (ws ++ [w])).
  - intros w q Hw Hne Hkey. eexists. split.
    + rewrite (built_visited _ _ _ _ Hb). rewrite decide_False; [done|].
      by rewrite Hkey.
    + apply list_elem_of_fmap_2, list_elem_of_filter. by split.
Qed.


(** C4. On a built table, [lookup] calls [visit] only with stored words
    whose canonical key is equal, as a string, to the canonical key of the
    query: a stored word with another key is not visited, whatever bucket
    it is in. After [insert("Dog!")] on a fresh table, [lookup("g0d")]
    visits no word. *)
Theorem lookup_visits_only_anagrams max_buckets ws t q vs :
  built strhash max_buckets ws t ->
  visited strhash t q = Some vs ->
  (forall v, v ∈ vs ->
     (exists i, v ∈ chain_at (m_words t) i) /\ canonical v = canonical q) /\
  (forall i v, v ∈ chain_at (m_words t) i ->
     canonical v <> canonical q -> v ∉ vs) /\
  (forall t0, built strhash max_buckets [lit "Dog!"] t0 ->
     canonical (lit "Dog!") = lit "dgo" /\
     canonical (lit "g0d") = lit "dg" /\
     visited strhash t0 (lit "g0d") = Some []).
Proof.
  intros Hb Hvis. destruct (built_inv _ _ _ Hb) as [Hwf _].
  assert (forall v, v ∈ vs ->
     (exists i, v ∈ chain_at (m_words t) i) /\ canonical v = canonical q)
    as Honly.
  { intros v Hv. split.
    - rewrite (visited_spec t q Hwf) in Hvis. injection Hvis as <-.
      unfold answers in Hv.
      destruct (decide (removeNonLetters q = []));
        [by apply not_elem_of_nil in Hv|].
      apply list_elem_of_filter in Hv as [_ Hv]. eauto.
    - destruct (visited_normal _ _ _ _ _ _ Hb Hvis Hv) as (_ & w & _ & -> & <-).
      apply canonical_removeNonLetters. }
  split_and!; [done| |].
  - intros i v _ Hne Hv. by destruct (Honly v Hv).
  - intros t0 Hb0. split_and!; [done..|].
    by rewrite (built_visited _ _ _ _ Hb0).
Qed.

(** C5. A word without letters is accepted by [insert] on a built table
    and nothing is stored for it: the stored words are the same, the
    bucket array itself is the same unless the table grows, and the word
    is in no bucket. No [lookup] on any built table ever visits it.
    A query without letters makes [lookup] return with no call of the
    callback, whatever the callback. Both calls succeed. *)
Theorem letterless_input_is_ignored max_buckets ws t w :
  built strhash max_buckets ws t ->
  canonical w = [] ->
  (exists t',
      insert strhash t w = Some t' /\
      all_words (m_words t') ≡ₚ all_words (m_words t) /\
      (m_B t' = m_B t -> m_words t' = m_words t) /\
      forall i, w ∉ chain_at (m_words t') i) /\
  (forall max_buckets' ws' t' q vs,
      built strhash max_buckets' ws' t' ->
      visited strhash t' q = Some vs -> w ∉ vs) /\
  (forall (W : Type) (callback : callback_t W) (world : W),
      lookup strhash t w callback world = Some (t, world)).
Proof.
  intros Hb Hw. apply canonical_nil_iff in Hw.
  destruct (built_inv _ _ _ Hb) as [Hwf _].
  assert (forall max_buckets' ws' t' i,
             built strhash max_buckets' ws' t' ->
             w ∉ chain_at (m_words t') i) as Hnot.
  { intros mb' ws' t' i Hb' Hin.
    destruct (built_stored _ _ _ _ _ Hb' Hin) as (Hne & w0 & _ & Heq).
    apply Hne. rewrite <- Hw, Heq. symmetry. apply removeNonLetters_idemp. }
  split_and!.
  - destruct (insert_spec t w Hwf) as (t' & Hrun & _ & _ & _ & HB & _ & Hall).
    exists t'. split_and!; [done| | |].
    + rewrite Hall. unfold stored_form. by rewrite decide_True.
    + intros Hsame. destruct (grows (increment_N t)) eqn:Hg.
      * pose proof (wf_B_pos _ _ Hwf) as Hpos.
        apply andb_true_iff in Hg as [Hlt _]. apply N.ltb_lt in Hlt.
        simpl in Hlt. lia.
      * rewrite (insert_letterless t w Hw Hg) in Hrun. by injection Hrun as <-.
    + intros i. apply (Hnot max_buckets (ws ++ [w])).
      by apply (built_insert _ _ t).
  - intros mb' ws' t' q vs Hb' Hvis Hin.
    destruct (built_inv _ _ _ Hb') as [Hwf' _].
    rewrite (visited_spec t' q Hwf') in Hvis. injection Hvis as <-.
    unfold answers in Hin.
    destruct (decide (removeNonLetters q = []));
      [by apply not_elem_of_nil in Hin|].
    apply list_elem_of_filter in Hin as [_ Hin].
    by apply (Hnot _ _ _ _ Hb') in Hin.
  - intros W [cb|] world; [|done]. unfold lookup. by rewrite decide_True.
Qed.


(** C7, as amended. On a built table, [lookup] visits the inserted
    anagrams of the query in their insertion order, growth events
    included, whatever the callback, and it passes to the callback the
    stored form of each word (its letters, lowercased), not the word as it
    was passed to [insert]; a query without letters visits nothing. When
    the inserted words with the key of the query are a, b, c, in this
    order of insertion, and the key is not empty, the visits are the
    stored forms of a, b, c, in this order; they are a, b, c themselves
    exactly when the key is not empty and a, b, c consist of lowercase
    letters only. With at most 10 buckets, after the inserts of "listen",
    "enlist", "banana" and "inlets", the lookup of "silent" visits
    "listen", "enlist", "inlets", in that order, and nothing else. *)
Theorem lookup_visits_in_insertion_order max_buckets ws t q :
  built strhash max_buckets ws t ->
  visited strhash t q
  = Some (if decide (canonical q = []) then []
          else removeNonLetters <$> anagrams q ws) /\
  (forall (W : Type) (cb : str -> W -> W) (world : W),
      lookup strhash t q (Some cb) world
      = Some (t, foldl (λ wd it, cb it wd) world
                   (if decide (canonical q = []) then []
                    else removeNonLetters <$> anagrams q ws))) /\
  (forall a b c,
      anagrams q ws = [a; b; c] -> canonical q <> [] ->
      visited strhash t q
      = Some [removeNonLetters a; removeNonLetters b; removeNonLetters c]) /\
  (forall a b c,
      anagrams q ws = [a; b; c] ->
      (visited strhash t q = Some [a; b; c]
       <-> canonical q <> [] /\ removeNonLetters a = a /\
           removeNonLetters b = b /\ removeNonLetters c = c)) /\
  (forall t4,
      built strhash 10
        [lit "listen"; lit "enlist"; lit "banana"; lit "inlets"] t4 ->
      visited strhash t4 (lit "silent")
      = Some [lit "listen"; lit "enlist"; lit "inlets"]).
Proof.
  intros Hb. pose proof (built_visited _ _ _ q Hb) as Hvis.
  split_and!; [done| | | |].
  - intros W cb world. by apply (built_lookup max_buckets).
  - intros a b c Habc Hq. by rewrite Hvis, decide_False, Habc.
  - intros a b c Habc. rewrite Hvis, Habc.
    destruct (decide (canonical q = [])) as [Hq|Hq].
    + split; [discriminate|]. by intros [Hne _].
    + simpl. split.
      * intros [= Ha Hb' Hc]. by split_and!.
      * intros (_ & -> & -> & ->). done.
  - intros t4 Hb4. by rewrite (built_visited _ _ _ _ Hb4).
Qed.

Lemma lookup_key_only {W : Type} t q p (callback : callback_t W) (world : W) :
  canonical q = canonical p ->
  lookup strhash t q callback world = lookup strhash t p callback world.
Proof.
  intros Hkey. unfold lookup. destruct callback as [cb|]; [|done].
  fold (canonical q) (canonical p). rewrite <- Hkey.
  assert (removeNonLetters q = [] <-> removeNonLetters p = []) as Hnil
    by (by rewrite <- !canonical_nil_iff, Hkey).
  destruct (decide (removeNonLetters q = [])) as [Hq|Hq],
           (decide (removeNonLetters p = [])) as [Hp|Hp]; tauto.
Qed.

(** C8. For every table state, callback and world, two queries with the
    same canonical key make [lookup] do the same thing: the same calls of
    the callback, in the same order, hence the same visited words. This
    is so in particular when one query is a permutation of the other. *)
Theorem lookup_same_key {W : Type} t q p (callback : callback_t W) (world : W) :
  canonical q = canonical p ->
  lookup strhash t q callback world = lookup strhash t p callback world /\
  visited strhash t q = visited strhash t p /\
  (forall p', Permutation q p' ->
     lookup strhash t q callback world = lookup strhash t p' callback world).
Proof.
  intros Hkey. split_and!.
  - by apply lookup_key_only.
  - unfold visited. by rewrite (lookup_key_only t q p).
  - intros p' Hperm. by apply lookup_key_only, canonical_of_perm.
Qed.

(** C9. For every table state and query, [lookup] with a null callback
    returns at once: it succeeds, the callback's world is untouched and so
    is the table; the same holds through the wrapper [Dictionary]. *)
Theorem lookup_null_callback {W : Type} t q (world : W) :
  lookup strhash t q None world = Some (t, world) /\
  Dictionary_lookup strhash {| m_impl := t |} q None world
  = Some ({| m_impl := t |}, world).
Proof. split; reflexivity. Qed.

(** C10. [lookup] never changes the table: whenever it returns, the table
    it returns is the table it was called on, with the same [m_B],
    [m_maxB], [m_N] and bucket chains; on a well-formed table it does
    return. The same holds through the wrapper [Dictionary]. *)
Theorem lookup_leaves_table_unchanged {W : Type} t q
    (callback : callback_t W) (world : W) :
  (forall r, lookup strhash t q callback world = Some r ->
             r.1 = t /\ m_B r.1 = m_B t /\ m_maxB r.1 = m_maxB t /\
             m_N r.1 = m_N t /\ m_words r.1 = m_words t) /\
  (forall r, Dictionary_lookup strhash {| m_impl := t |} q callback world
             = Some r -> r.1 = {| m_impl := t |}) /\
  (wf strhash t -> is_Some (lookup strhash t q callback world)).
Proof.
  assert (forall r, lookup strhash t q callback world = Some r -> r.1 = t)
    as Hframe.
  { intros r Hr. unfold lookup in Hr. destruct callback as [cb|];
      [|by injection Hr as <-].
    destruct (decide (removeNonLetters q = [])); [by injection Hr as <-|].
    destruct (hash strhash (m_B t) _) as [bucket|]; [|done]. simpl in Hr.
    destruct (m_words t !! N.to_nat bucket) as [slot|]; [|done]. simpl in Hr.
    destruct slot; by injection Hr as <-. }
  split_and!.
  - intros r Hr. by rewrite (Hframe r Hr).
  - intros r Hr. unfold Dictionary_lookup in Hr. simpl in Hr.
    destruct (lookup strhash t q callback world) as [r0|] eqn:E; [|done].
    simpl in Hr. injection Hr as <-. simpl. by rewrite (Hframe r0).
  - intros Hwf. destruct callback as [cb|]; [|by eexists].
    rewrite lookup_spec by done. by eexists.
Qed.

End Correctness.

(** * Concrete runs *)

Ltac solve_built := split; [unfold INT_MAX; lia | vm_compute; reflexivity].

Example seven_table_has_ten_buckets : m_B seven_table = 10 /\ m_N seven_table = 7.
Proof. split; reflexivity. Qed.

Example nine_table_has_grown : m_B nine_table = 20 /\ m_N nine_table = 9.
Proof. split; reflexivity. Qed.

Example nine_table_lookup :
  visited sample_hash nine_table (lit "Spot")
  = Some [lit "stop"; lit "pots"; lit "tops"].
Proof. vm_compute. reflexivity. Qed.

Example load_factor_thresholds :
  load_factor_exceeded 7 10 = false /\ load_factor_exceeded 8 10 = true /\
  load_factor_exceeded 14 20 = false /\ load_factor_exceeded 15 20 = true.
Proof. vm_compute. split_and!; reflexivity. Qed.

(** C1 as stated fails. "Dog!" and "god" have the same non-empty canonical
    key, but after [insert("Dog!")] on a fresh table the lookup of "god"
    calls the callback with "dog", the word as [removeNonLetters] left it,
    and not with "Dog!", the word passed to [insert]. *)
Lemma original_word_is_not_visited :
  canonical (lit "Dog!") = canonical (lit "god") /\
  canonical (lit "Dog!") <> [] /\
  exists t1,
    insert sample_hash (DictionaryImpl_new 10) (lit "Dog!") = Some t1 /\
    visited sample_hash t1 (lit "god") = Some [lit "dog"] /\
    lit "Dog!" ∉ [lit "dog"].
Proof.
  split_and!; [reflexivity|discriminate|].
  eexists. split_and!; [vm_compute; reflexivity..|].
  intros H. apply list_elem_of_singleton in H. discriminate.
Qed.

Lemma lookup_finds_anagram_witness :
  built sample_hash 10 scenario_words scenario_table /\
  canonical (lit "Dog!") = canonical (lit "god") /\
  canonical (lit "Dog!") <> [] /\
  (exists t1 vs,
      insert sample_hash scenario_table (lit "Dog!") = Some t1 /\
      visited sample_hash t1 (lit "god") = Some vs /\
      removeNonLetters (lit "Dog!") ∈ vs /\
      (lit "Dog!" ∈ vs <-> removeNonLetters (lit "Dog!") = lit "Dog!")) /\
  (exists t2 vs,
      insert sample_hash scenario_table (lit "god") = Some t2 /\
      visited sample_hash t2 (lit "Dog!") = Some vs /\
      removeNonLetters (lit "god") ∈ vs /\
      (lit "god" ∈ vs <-> removeNonLetters (lit "god") = lit "god")).
Proof.
  assert (built sample_hash 10 scenario_words scenario_table) as Hb
    by solve_built.
  assert (canonical (lit "Dog!") = canonical (lit "god")) as Hkey
    by reflexivity.
  assert (canonical (lit "Dog!") <> []) as Hne by (vm_compute; discriminate).
  split_and!; [exact Hb|exact Hkey|exact Hne|..];
    apply (lookup_finds_anagram sample_hash 10 scenario_words scenario_table
             (lit "Dog!") (lit "god") Hb Hkey Hne).
Defined.

Lemma growth_keeps_table_consistent_witness :
  built sample_hash 20 nine_words nine_table /\
  m_maxB nine_table = Z.to_N 20 /\
  m_B nine_table <= m_maxB nine_table /\
  (forall ws' t', insert_all sample_hash nine_table ws' = Some t' ->
                  m_B nine_table <= m_B t') /\
  (forall i v, v ∈ chain_at (m_words nine_table) i ->
               hash sample_hash (m_B nine_table) (canonical v) = Some i) /\
  (forall w t', insert sample_hash nine_table w = Some t' ->
     m_B nine_table <= m_B t' <= m_maxB t' /\
     all_words (m_words t')
     ≡ₚ stored_form w ++ all_words (m_words nine_table) /\
     forall i v, v ∈ chain_at (m_words t') i ->
                 hash sample_hash (m_B t') (canonical v) = Some i) /\
  (forall w q, w ∈ nine_words -> canonical w <> [] ->
               canonical q = canonical w ->
               exists vs, visited sample_hash nine_table q = Some vs /\
                          removeNonLetters w ∈ vs).
Proof.
  assert (built sample_hash 20 nine_words nine_table) as Hb by solve_built.
  split; [exact Hb|].
  exact (growth_keeps_table_consistent sample_hash 20 nine_words nine_table Hb).
Defined.



Lemma lookup_visits_only_anagrams_witness :
  built sample_hash 10 scenario_words scenario_table /\
  visited sample_hash scenario_table (lit "silent")
  = Some [lit "listen"; lit "enlist"; lit "inlets"] /\
  (forall v, v ∈ [lit "listen"; lit "enlist"; lit "inlets"] ->
     (exists i, v ∈ chain_at (m_words scenario_table) i) /\
     canonical v = canonical (lit "silent")) /\
  (forall i v, v ∈ chain_at (m_words scenario_table) i ->
     canonical v <> canonical (lit "silent") ->
     v ∉ [lit "listen"; lit "enlist"; lit "inlets"]) /\
  (forall t0, built sample_hash 10 [lit "Dog!"] t0 ->
     canonical (lit "Dog!") = lit "dgo" /\
     canonical (lit "g0d") = lit "dg" /\
     visited sample_hash t0 (lit "g0d") = Some []).
Proof.
  assert (built sample_hash 10 scenario_words scenario_table) as Hb
    by solve_built.
  assert (visited sample_hash scenario_table (lit "silent")
          = Some [lit "listen"; lit "enlist"; lit "inlets"]) as Hvis
    by (vm_compute; reflexivity).
  split; [exact Hb|]. split; [exact Hvis|].
  exact (lookup_visits_only_anagrams sample_hash 10 scenario_words
           scenario_table (lit "silent") _ Hb Hvis).
Defined.

Lemma letterless_input_is_ignored_witness :
  built sample_hash 10 scenario_words scenario_table /\
  canonical (lit "123") = [] /\
  (exists t',
      insert sample_hash scenario_table (lit "123") = Some t' /\
      all_words (m_words t') ≡ₚ all_words (m_words scenario_table) /\
      (m_B t' = m_B scenario_table -> m_words t' = m_words scenario_table) /\
      forall i, lit "123" ∉ chain_at (m_words t') i) /\
  (forall max_buckets' ws' t' q vs,
      built sample_hash max_buckets' ws' t' ->
      visited sample_hash t' q = Some vs -> lit "123" ∉ vs) /\
  (forall (W : Type) (callback : callback_t W) (world : W),
      lookup sample_hash scenario_table (lit "123") callback world
      = Some (scenario_table, world)).
Proof.
  assert (built sample_hash 10 scenario_words scenario_table) as Hb
    by solve_built.
  assert (canonical (lit "123") = []) as Hw by reflexivity.
  split; [exact Hb|]. split; [exact Hw|].
  exact (letterless_input_is_ignored sample_hash 10 scenario_words
           scenario_table (lit "123") Hb Hw).
Defined.



(** C7 as stated fails. "Dog!", "God" and "dog" are mutual anagrams; after
    their insertion in this order into a fresh table, the lookup of any of
    them calls the callback with "dog", "god", "dog", the words as
    [removeNonLetters] left them, and not with the words passed to
    [insert]. "1", "2" and "3" have the same, empty, canonical key; after
    their insertion the lookup of any of them visits nothing. *)
Lemma anagrams_are_visited_in_stored_form :
  anagrams (lit "dog") [lit "Dog!"; lit "God"; lit "dog"]
  = [lit "Dog!"; lit "God"; lit "dog"] /\
  anagrams (lit "1") [lit "1"; lit "2"; lit "3"]
  = [lit "1"; lit "2"; lit "3"] /\
  exists t u,
    built sample_hash 10 [lit "Dog!"; lit "God"; lit "dog"] t /\
    visited sample_hash t (lit "dog")
    = Some [lit "dog"; lit "god"; lit "dog"] /\
    visited sample_hash t (lit "Dog!")
    = Some [lit "dog"; lit "god"; lit "dog"] /\
    visited sample_hash t (lit "God")
    = Some [lit "dog"; lit "god"; lit "dog"] /\
    [lit "dog"; lit "god"; lit "dog"] <> [lit "Dog!"; lit "God"; lit "dog"] /\
    built sample_hash 10 [lit "1"; lit "2"; lit "3"] u /\
    visited sample_hash u (lit "1") = Some [] /\
    visited sample_hash u (lit "2") = Some [] /\
    visited sample_hash u (lit "3") = Some [].
Proof.
  split; [vm_compute; reflexivity|]. split; [vm_compute; reflexivity|].
  eexists _, _.
  split; [solve_built|].
  do 3 (split; [vm_compute; reflexivity|]).
  split; [discriminate|].
  split; [solve_built|].
  split_and!; vm_compute; reflexivity.
Qed.

Lemma lookup_visits_in_insertion_order_witness :
  built sample_hash 10 scenario_words scenario_table /\
  visited sample_hash scenario_table (lit "silent")
  = Some (if decide (canonical (lit "silent") = []) then []
          else removeNonLetters <$> anagrams (lit "silent") scenario_words) /\
  (forall (W : Type) (cb : str -> W -> W) (world : W),
      lookup sample_hash scenario_table (lit "silent") (Some cb) world
      = Some (scenario_table,
              foldl (λ wd it, cb it wd) world
                (if decide (canonical (lit "silent") = []) then []
                 else removeNonLetters
                        <$> anagrams (lit "silent") scenario_words))) /\
  (forall a b c,
      anagrams (lit "silent") scenario_words = [a; b; c] ->
      canonical (lit "silent") <> [] ->
      visited sample_hash scenario_table (lit "silent")
      = Some [removeNonLetters a; removeNonLetters b; removeNonLetters c]) /\
  (forall a b c,
      anagrams (lit "silent") scenario_words = [a; b; c] ->
      (visited sample_hash scenario_table (lit "silent") = Some [a; b; c]
       <-> canonical (lit "silent") <> [] /\ removeNonLetters a = a /\
           removeNonLetters b = b /\ removeNonLetters c = c)) /\
  (forall t4,
      built sample_hash 10
        [lit "listen"; lit "enlist"; lit "banana"; lit "inlets"] t4 ->
      visited sample_hash t4 (lit "silent")
      = Some [lit "listen"; lit "enlist"; lit "inlets"]).
Proof.
  assert (built sample_hash 10 scenario_words scenario_table) as Hb
    by solve_built.
  split; [exact Hb|].
  exact (lookup_visits_in_insertion_order sample_hash 10 scenario_words
           scenario_table (lit "silent") Hb).
Defined.

Lemma lookup_same_key_witness :
  canonical (lit "stop") = canonical (lit "pots") /\
  lookup sample_hash nine_table (lit "stop") (Some record_visit) []
  = lookup sample_hash nine_table (lit "pots") (Some record_visit) [] /\
  visited sample_hash nine_table (lit "stop")
  = visited sample_hash nine_table (lit "pots") /\
  (forall p', Permutation (lit "stop") p' ->
     lookup sample_hash nine_table (lit "stop") (Some record_visit) []
     = lookup sample_hash nine_table p' (Some record_visit) []).
Proof.
  assert (canonical (lit "stop") = canonical (lit "pots")) as Hkey
    by reflexivity.
  split; [exact Hkey|].
  exact (lookup_same_key sample_hash nine_table (lit "stop") (lit "pots")
           (Some record_visit) [] Hkey).
Defined.

Lemma lookup_leaves_table_unchanged_witness :
  lookup sample_hash nine_table (lit "Spot") (Some record_visit) []
  = Some (nine_table, [lit "stop"; lit "pots"; lit "tops"]) /\
  (nine_table, [lit "stop"; lit "pots"; lit "tops"]).1 = nine_table /\
  m_B (nine_table, [lit "stop"; lit "pots"; lit "tops"]).1 = m_B nine_table /\
  m_maxB (nine_table, [lit "stop"; lit "pots"; lit "tops"]).1
  = m_maxB nine_table /\
  m_N (nine_table, [lit "stop"; lit "pots"; lit "tops"]).1 = m_N nine_table /\
  m_words (nine_table, [lit "stop"; lit "pots"; lit "tops"]).1
  = m_words nine_table.
Proof.
  assert (lookup sample_hash nine_table (lit "Spot") (Some record_visit) []
          = Some (nine_table, [lit "stop"; lit "pots"; lit "tops"])) as Hrun
    by (vm_compute; reflexivity).
  split; [exact Hrun|].
  exact (proj1 (lookup_leaves_table_unchanged sample_hash nine_table
                  (lit "Spot") (Some record_visit) []) _ Hrun).
Defined.

(** * Further properties of the code *)

(** ** [removeNonLetters] *)

Lemma removeNonLetters_app s1 s2 :
  removeNonLetters (s1 ++ s2) = removeNonLetters s1 ++ removeNonLetters s2.
Proof.
  induction s1 as [|c s1 IH]; simpl; [done|].
  destruct (isalpha c); simpl; by rewrite IH.
Qed.

Lemma removeNonLetters_length s :
  (length (removeNonLetters s) <= length s)%nat.
Proof.
  induction s as [|c s IH]; simpl; [done|].
  destruct (isalpha c); simpl; lia.
Qed.

(** The state of the loop after [from] has passed the first [i]
    positions. *)
Lemma compact_loop_prefix s i :
  (i <= length s)%nat ->
  foldl compact_step (s, 0%nat) (seq 0 i)
  = (removeNonLetters (take i s)
       ++ drop (length (removeNonLetters (take i s))) s,
     length (removeNonLetters (take i s))).
Proof.
  induction i as [|i IH]; intros Hi.
  - done.
  - rewrite seq_S, foldl_app, IH by lia. simpl.
    set (r := removeNonLetters (take i s)).
    assert (length r <= i)%nat as Hr.
    { pose proof (removeNonLetters_length (take i s)) as Hlen.
      rewrite length_take in Hlen. unfold r. lia. }
    destruct (lookup_lt_is_Some_2 s i ltac:(lia)) as [c Hc].
    rewrite (take_S_r _ _ _ Hc), removeNonLetters_app. fold r.
    rewrite lookup_app_r by lia. rewrite lookup_drop.
    replace (length r + (i - length r))%nat with i by lia. rewrite Hc.
    simpl. destruct (isalpha c).
    + rewrite length_app. simpl. f_equal; [|lia].
      rewrite insert_app_r_alt by lia. rewrite Nat.sub_diag.
      destruct (lookup_lt_is_Some_2 s (length r) ltac:(lia)) as [d Hd].
      rewrite (drop_S _ _ _ Hd). simpl.
      rewrite <- app_assoc. simpl. do 2 f_equal. f_equal. lia.
    + by rewrite app_nil_r.
Qed.

(** X1. The two-iterator loop of [removeNonLetters], run on the buffer of
    the string with its reads and writes, followed by the [erase], leaves
    the letters of the string, lowercased, in their order: the result of
    the recursive [removeNonLetters], which is [tolower] mapped over the
    [isalpha] characters. At every point of the loop the write position
    [to] has not passed the read position [from], the buffer has its
    original length, its first [to] characters are the result for the
    characters already read, and the characters still to be read are
    untouched. *)
Theorem removeNonLetters_in_place_correct s :
  removeNonLetters_in_place s = removeNonLetters s /\
  removeNonLetters s = tolower <$> filter (λ c, isalpha c = true) s /\
  forall from, (from <= length s)%nat ->
    exists buf to,
      foldl compact_step (s, 0%nat) (seq 0 from) = (buf, to) /\
      (to <= from)%nat /\ length buf = length s /\
      take to buf = removeNonLetters (take from s) /\
      drop from buf = drop from s.
Proof.
  split_and!.
  - unfold removeNonLetters_in_place.
    rewrite compact_loop_prefix by done. rewrite (take_ge s (length s)) by lia.
    by rewrite take_app_length.
  - induction s as [|c s IH]; [done|]. simpl. rewrite filter_cons.
    destruct (isalpha c) eqn:E.
    + rewrite decide_True by done. by rewrite fmap_cons, IH.
    + rewrite decide_False by done. done.
  - intros from Hfrom. eexists _, _. split; [by apply compact_loop_prefix|].
    set (r := removeNonLetters (take from s)).
    assert (length r <= from)%nat as Hr.
    { pose proof (removeNonLetters_length (take from s)) as Hlen.
      rewrite length_take in Hlen. unfold r. lia. }
    split_and!; [done| | |].
    + rewrite length_app, length_drop. lia.
    + by rewrite take_app_length.
    + rewrite drop_app_ge by done. rewrite drop_drop. f_equal. lia.
Qed.

Lemma tolower_lowercase c :
  isalpha c = true -> 97 <= N_of_ascii (tolower c) <= 122.
Proof.
  unfold isalpha, tolower. cbv zeta. intros H.
  destruct ((65 <=? N_of_ascii c) && (N_of_ascii c <=? 90)) eqn:E.
  - apply andb_true_iff in E as [E1 E2]. apply N.leb_le in E1, E2.
    rewrite N_ascii_embedding by lia. lia.
  - simpl in H. apply andb_true_iff in H as [E1 E2].
    apply N.leb_le in E1, E2. lia.
Qed.

Lemma lowercase_fixed c :
  97 <= N_of_ascii c <= 122 -> isalpha c = true /\ tolower c = c.
Proof.
  intros H. unfold isalpha, tolower. cbv zeta.
  assert ((65 <=? N_of_ascii c) && (N_of_ascii c <=? 90) = false) as ->.
  { apply andb_false_iff. right. apply N.leb_gt. lia. }
  split; [|done]. simpl. apply andb_true_iff. split; apply N.leb_le; lia.
Qed.

(** X2. [removeNonLetters] returns lowercase letters only ('a' to 'z'),
    never more characters than it was given, and changes nothing when
    applied a second time; it returns its argument unchanged exactly when
    the argument consists of lowercase letters; and it works character by
    character: the result for a concatenation is the concatenation of the
    results. *)
Theorem removeNonLetters_normal_form s :
  Forall (λ c, 97 <= N_of_ascii c <= 122) (removeNonLetters s) /\
  (length (removeNonLetters s) <= length s)%nat /\
  removeNonLetters (removeNonLetters s) = removeNonLetters s /\
  (removeNonLetters s = s <-> Forall (λ c, 97 <= N_of_ascii c <= 122) s) /\
  (forall s', removeNonLetters (s ++ s')
              = removeNonLetters s ++ removeNonLetters s').
Proof.
  assert (Forall (λ c, 97 <= N_of_ascii c <= 122) (removeNonLetters s))
    as Hall.
  { induction s as [|c s IH]; simpl; [constructor|].
    destruct (isalpha c) eqn:E; [|done].
    constructor; [by apply tolower_lowercase|done]. }
  split_and!;
    [done|apply removeNonLetters_length|apply removeNonLetters_idemp| |].
  - split; [by intros <-|]. clear Hall.
    induction 1 as [|c s' Hc Hs IH]; simpl; [done|].
    destruct (lowercase_fixed c Hc) as [Ha Hl]. by rewrite Ha, Hl, IH.
  - apply removeNonLetters_app.
Qed.

(** ** Keys *)

(** X3. The key under which [insert] stores and [lookup] searches (the
    letters kept by [removeNonLetters], sorted with [std::sort]) is the
    same for two strings exactly when their letters, case ignored, are
    the same up to order. The key is a rearrangement of the letters of
    the string, it is in ascending order, and it does not depend on the
    order of the characters of the string. *)
Theorem same_key_iff_same_letters a b :
  (canonical a = canonical b
   <-> removeNonLetters a ≡ₚ removeNonLetters b) /\
  canonical a ≡ₚ removeNonLetters a /\
  StronglySorted (λ c d, N_of_ascii c <= N_of_ascii d) (canonical a) /\
  (forall p, a ≡ₚ p -> canonical p = canonical a).
Proof.
  split_and!.
  - split.
    + intros Hkey. rewrite <- (std_sort_perm (removeNonLetters a)).
      rewrite <- (std_sort_perm (removeNonLetters b)).
      unfold canonical in Hkey. by rewrite Hkey.
    + apply std_sort_of_perm.
  - apply std_sort_perm.
  - pose proof (std_sort_sorted (removeNonLetters a)) as Hs.
    unfold canonical. induction Hs as [|c l Hl IH Hc]; constructor; [done|].
    eapply Forall_impl; [exact Hc|]. intros d Hd. unfold char_le in Hd.
    by apply N.leb_le in Hd.
  - intros p Hp. symmetry. by apply canonical_of_perm.
Qed.

(** The stored forms of a sequence of words. *)
Lemma bind_stored_form ws :
  ws ≫= stored_form
  = removeNonLetters <$> filter (λ w, removeNonLetters w <> []) ws.
Proof.
  induction ws as [|w ws IH]; [done|].
  rewrite bind_cons, filter_cons, IH. unfold stored_form.
  destruct (decide (removeNonLetters w = [])) as [Hw|Hw].
  - by rewrite decide_False by tauto.
  - by rewrite decide_True by done.
Qed.

Section Tables.

Variable strhash : str -> N.

(** ** [hash] *)

(** X4. [hash] has no defined result for a table without buckets (the
    remainder by zero). For a table with buckets its result is an index
    below the bucket count, so an index into the bucket array; the
    conversion to [unsigned int] does not change the remainder; and the
    keys of two strings with the same letters are sent to the same
    bucket. *)
Theorem hash_stays_in_the_array B key :
  (B = 0 -> hash strhash B key = None) /\
  (B <> 0 -> exists i, hash strhash B key = Some i /\ i < B) /\
  (B <> 0 -> B <= 2 ^ 32 -> hash strhash B key = Some (strhash key mod B)) /\
  (forall a b, removeNonLetters a ≡ₚ removeNonLetters b ->
               hash strhash B (canonical a) = hash strhash B (canonical b)).
Proof.
  split_and!.
  - by intros ->.
  - intros HB. exists (bucket_of strhash B key).
    split; [by apply hash_Some|by apply bucket_of_lt].
  - intros HB Hle. rewrite hash_Some by done. f_equal.
    unfold bucket_of, uint32. apply N.mod_small.
    pose proof (N.mod_lt (strhash key) B HB). lia.
  - intros a b Hperm. unfold canonical. by rewrite (std_sort_of_perm _ _ Hperm).
Qed.

(** The item count of a table that can still grow is the number of
    [insert] calls. *)
Lemma insert_all_count t ws t' n :
  wf strhash t -> m_maxB t <= 41943040 -> load_bounded t ->
  (m_B t < m_maxB t -> m_N t = n) ->
  insert_all strhash t ws = Some t' ->
  m_B t' < m_maxB t' -> m_N t' = n + N.of_nat (length ws).
Proof.
  revert t n. induction ws as [|w ws IH];
    intros t n Hwf Hsmall Hload Hn Hrun Hlt; simpl in Hrun.
  - injection Hrun as <-. rewrite Hn by done. simpl. lia.
  - destruct (insert_spec strhash t w Hwf)
      as (t1 & Hrun1 & Hwf1 & HmaxB1 & HN1 & _).
    rewrite Hrun1 in Hrun. simpl in Hrun.
    pose proof (load_step strhash t w t1 Hwf Hsmall Hload Hrun1) as Hload1.
    rewrite (IH t1 (n + 1)); [simpl length; lia|done|by rewrite HmaxB1|done|
                              |done|done].
    intros Hlt1. rewrite HmaxB1 in Hlt1.
    pose proof (insert_B_mono strhash t w t1 Hwf Hrun1) as Hmono.
    assert (m_B t < m_maxB t) as Hlt0 by lia.
    destruct (Hload Hlt0) as (Hin & Hle & _).
    destruct (bucket_counts_double _ Hin) as [Hb _].
    rewrite HN1, (Hn Hlt0) in *. unfold uint32. apply N.mod_small. lia.
Qed.

(** X5. As long as a table constructed with at most 41943040 buckets has
    not reached its maximum, its item count is the number of [insert]
    calls, its load is at most 7/10, its bucket count is 10 doubled some
    number of times, its load is more than 7/20 once it has grown, and a
    further call of [tryRehash] would change nothing: one doubling per
    [insert] is enough to keep the load factor. *)
Theorem load_factor_is_maintained max_buckets ws t :
  built strhash max_buckets ws t -> (max_buckets <= 41943040)%Z ->
  m_B t < m_maxB t ->
  m_N t = N.of_nat (length ws) /\
  10 * m_N t <= 7 * m_B t /\
  m_B t ∈ bucket_counts /\
  (m_B t = 10 \/ 7 * m_B t < 20 * m_N t) /\
  tryRehash strhash t = Some t.
Proof.
  intros Hb Hsmall Hlt.
  destruct (built_load_bounded strhash _ _ _ Hb Hsmall Hlt)
    as (Hin & Hle & Hhalf).
  split_and!; [|done..|].
  2:{ apply tryRehash_unchanged. unfold grows.
      by rewrite (load_not_exceeded _ _ Hin Hle Hhalf), andb_false_r. }
  destruct Hb as [Hmb Hrun].
  destruct (DictionaryImpl_new_fields max_buckets Hmb) as (HmaxB & _ & HN).
  rewrite (insert_all_count (DictionaryImpl_new max_buckets) ws t 0);
    [lia| | | |done|done|done].
  - by apply DictionaryImpl_new_wf.
  - rewrite HmaxB. lia.
  - by apply DictionaryImpl_new_on_schedule.
Qed.

(** ** A table constructed with [maxBuckets = 0] *)

Lemma no_bucket_insert n w :
  insert strhash {| m_maxB := 0; m_B := 0; m_N := n; m_words := [] |} w
  = if decide (removeNonLetters w = [])
    then Some {| m_maxB := 0; m_B := 0; m_N := uint32 (n + 1);
                 m_words := [] |}
    else None.
Proof.
  unfold insert, tryRehash, increment_N, store. simpl.
  by destruct (decide (removeNonLetters w = [])).
Qed.

Lemma no_bucket_run ws n :
  insert_all strhash
    {| m_maxB := 0; m_B := 0; m_N := uint32 n; m_words := [] |} ws
  = if decide (Forall (λ w, removeNonLetters w = []) ws)
    then Some {| m_maxB := 0; m_B := 0;
                 m_N := uint32 (n + N.of_nat (length ws));
                 m_words := [] |}
    else None.
Proof.
  revert n. induction ws as [|w ws IH]; intros n.
  - cbn [insert_all length N.of_nat]. rewrite decide_True by constructor.
    by rewrite N.add_0_r.
  - cbn [insert_all]. rewrite no_bucket_insert.
    destruct (decide (removeNonLetters w = [])) as [Hw|Hw].
    + simpl. replace (uint32 (uint32 n + 1)) with (uint32 (n + 1)).
      2:{ unfold uint32. by rewrite N.Div0.add_mod_idemp_l. }
      rewrite IH.
      destruct (decide (Forall (λ w, removeNonLetters w = []) ws))
        as [Hall|Hall].
      * rewrite decide_True by (by constructor). do 3 f_equal.
        simpl length. lia.
      * rewrite decide_False; [done|]. intros Hc. by inversion Hc.
    + simpl. rewrite decide_False; [done|]. intros Hc. by inversion Hc.
Qed.

(** X6. The constructor accepts [maxBuckets = 0] and builds a table with
    no bucket. On it a sequence of [insert] calls is defined exactly when
    no word has a letter (the first word with a letter makes [hash] take
    a remainder by zero); such calls only count. A [lookup] with a
    callback then returns at once for a query without letters and is
    undefined for a query with a letter. *)
Theorem table_without_buckets ws :
  m_B (DictionaryImpl_new 0) = 0 /\ m_words (DictionaryImpl_new 0) = [] /\
  insert_all strhash (DictionaryImpl_new 0) ws
  = (if decide (Forall (λ w, removeNonLetters w = []) ws)
     then Some {| m_maxB := 0; m_B := 0;
                  m_N := uint32 (N.of_nat (length ws)); m_words := [] |}
     else None) /\
  (forall t, insert_all strhash (DictionaryImpl_new 0) ws = Some t ->
     forall (W : Type) (cb : str -> W -> W) (world : W) q,
       lookup strhash t q (Some cb) world
       = if decide (removeNonLetters q = []) then Some (t, world) else None).
Proof.
  assert (DictionaryImpl_new 0
          = {| m_maxB := 0; m_B := 0; m_N := uint32 0; m_words := [] |}) as Hnew
    by done.
  split_and!; [done|done| |].
  - rewrite Hnew. apply (no_bucket_run ws 0).
  - intros t Hrun W cb world q. rewrite Hnew, (no_bucket_run ws 0) in Hrun.
    destruct (decide (Forall (λ w, removeNonLetters w = []) ws)); [|done].
    injection Hrun as <-. unfold lookup.
    by destruct (decide (removeNonLetters q = [])).
Qed.

(** ** What one [insert] changes for [lookup] *)

Lemma anagrams_snoc q ws w :
  anagrams q (ws ++ [w])
  = anagrams q ws ++ (if decide (canonical w = canonical q) then [w] else []).
Proof.
  unfold anagrams. rewrite filter_app, filter_cons, filter_nil.
  by destruct (decide (canonical w = canonical q)).
Qed.

(** X7. One [insert] on a built table changes the answer of [lookup] for
    the queries with the key of the inserted word only, and for those it
    adds the stored form of the word at the end of the visits, also when
    the insert makes the table grow and when the word is already there
    (nothing is deduplicated). For every other query the visits are the
    same before and after. *)
Theorem insert_appends_to_its_key max_buckets ws t w t' q :
  built strhash max_buckets ws t ->
  insert strhash t w = Some t' ->
  exists vs,
    visited strhash t q = Some vs /\
    visited strhash t' q
    = Some (vs ++ if decide (canonical w = canonical q /\ canonical q <> [])
                  then [removeNonLetters w] else []).
Proof.
  intros Hb Hrun. pose proof (built_insert strhash _ _ _ _ _ Hb Hrun) as Hb'.
  eexists. split; [by apply (built_visited strhash max_buckets ws)|].
  rewrite (built_visited strhash _ _ _ q Hb').
  f_equal. destruct (decide (canonical q = [])) as [Hq|Hq].
  - rewrite decide_False by tauto. done.
  - rewrite anagrams_snoc, fmap_app. f_equal.
    destruct (decide (canonical w = canonical q)).
    + by rewrite decide_True.
    + rewrite decide_False by tauto. done.
Qed.

(** ** The contents of a built table *)

Lemma insert_all_item_count t ws t' :
  wf strhash t -> insert_all strhash t ws = Some t' ->
  m_N t' = uint32 (m_N t + N.of_nat (length ws)).
Proof.
  revert t. induction ws as [|w ws IH]; intros t Hwf Hrun; simpl in Hrun.
  - injection Hrun as <-. simpl. rewrite N.add_0_r. unfold uint32.
    symmetry. apply N.mod_small, (wf_N_uint _ _ Hwf).
  - destruct (insert_spec strhash t w Hwf)
      as (t1 & Hrun1 & Hwf1 & _ & HN1 & _).
    rewrite Hrun1 in Hrun. simpl in Hrun.
    rewrite (IH t1 Hwf1 Hrun), HN1. unfold uint32.
    rewrite N.Div0.add_mod_idemp_l. f_equal. simpl length. lia.
Qed.

(** X8. The words in the buckets of a built table are, as a multiset,
    the stored forms of the inserted words that have a letter: no insert
    and no growth drops or duplicates a word. The item count is the
    number of [insert] calls modulo 2^32, so it is in general larger than
    the number of stored words. The bucket array has [m_B] entries, and
    [m_B] lies between the initial count [min(10, maxBuckets)] and
    [maxBuckets]. *)
Theorem table_holds_what_was_inserted max_buckets ws t :
  built strhash max_buckets ws t ->
  all_words (m_words t)
  ≡ₚ removeNonLetters <$> filter (λ w, removeNonLetters w <> []) ws /\
  m_N t = uint32 (N.of_nat (length ws)) /\
  (length (all_words (m_words t)) <= length ws)%nat /\
  length (m_words t) = N.to_nat (m_B t) /\
  N.min 10 (Z.to_N max_buckets) <= m_B t <= Z.to_N max_buckets.
Proof.
  intros Hb. pose proof (built_contents strhash _ _ _ Hb) as Hall.
  rewrite bind_stored_form in Hall.
  destruct (built_inv strhash _ _ _ Hb) as [Hwf _].
  destruct (built_fields strhash _ _ _ Hb) as [HmaxB Hmin].
  split_and!; [done| | |apply (wf_length _ _ Hwf)|done|].
  - destruct Hb as [Hmb Hrun].
    rewrite (insert_all_item_count _ _ _
               (DictionaryImpl_new_wf strhash _ Hmb) Hrun).
    by destruct (DictionaryImpl_new_fields _ Hmb) as (_ & _ & ->).
  - rewrite Hall, length_fmap. apply length_filter.
  - rewrite <- HmaxB. apply (wf_B_max _ _ Hwf).
Qed.

(** ** The wrapper class *)

Lemma Dictionary_insert_all_impl d ws :
  Dictionary_insert_all strhash d ws
  = mkDict <$> insert_all strhash (m_impl d) ws.
Proof.
  revert d. induction ws as [|w ws IH]; intros [impl]; simpl; [done|].
  unfold Dictionary_insert. simpl.
  destruct (insert strhash impl w) as [impl'|]; simpl; [|done].
  by rewrite IH.
Qed.

(** X9. Through the wrapper class: for a positive [maxBuckets], every
    sequence of [Dictionary::insert] calls on a new [Dictionary]
    succeeds, the [DictionaryImpl] it owns is the table built by the same
    calls, and [Dictionary::lookup] calls the callback with the stored
    forms of the inserted anagrams of the query, in insertion order, and
    returns the dictionary unchanged; a further [Dictionary::insert]
    always succeeds. *)
Theorem Dictionary_finds_anagrams maxBuckets ws :
  (1 <= maxBuckets <= INT_MAX)%Z ->
  exists d,
    Dictionary_insert_all strhash (Dictionary_new maxBuckets) ws = Some d /\
    built strhash maxBuckets ws (m_impl d) /\
    (forall (W : Type) (cb : str -> W -> W) (world : W) q,
        Dictionary_lookup strhash d q (Some cb) world
        = Some (d, foldl (λ wd it, cb it wd) world
                     (if decide (canonical q = []) then []
                      else removeNonLetters <$> anagrams q ws))) /\
    (forall d' w, Dictionary_insert strhash d w = Some d' ->
                  Dictionary_insert_all strhash (Dictionary_new maxBuckets)
                    (ws ++ [w]) = Some d') /\
    (forall w, is_Some (Dictionary_insert strhash d w)).
Proof.
  intros Hmb. destruct (built_total strhash maxBuckets ws Hmb) as [t Hb].
  exists (mkDict t). rewrite Dictionary_insert_all_impl. simpl.
  destruct Hb as [_ Hrun]. rewrite Hrun. simpl.
  assert (built strhash maxBuckets ws t) as Hb by done.
  split_and!; [done|done| | |].
  - intros W cb world q. unfold Dictionary_lookup. cbn [m_impl].
    by rewrite (built_lookup strhash maxBuckets ws t q cb world Hb).
  - intros d' w Hins. rewrite Dictionary_insert_all_impl. simpl.
    rewrite insert_all_app, Hrun. simpl.
    unfold Dictionary_insert in Hins. simpl in Hins.
    destruct (insert strhash t w) as [t'|]; simpl in *; [|done].
    by injection Hins as <-.
  - intros w. destruct (built_inv strhash _ _ _ Hb) as [Hwf _].
    destruct (insert_spec strhash t w Hwf) as (t' & Hins & _).
    unfold Dictionary_insert. simpl. rewrite Hins. by eexists.
Qed.

End Tables.

(** ** A negative [maxBuckets] *)

Section NegativeMaximum.

Variable strhash : str -> N.

(** [lookup] does not read [m_maxB]. *)
Lemma visited_same_buckets t1 t2 q :
  same_buckets t1 t2 -> visited strhash t1 q = visited strhash t2 q.
Proof.
  destruct t1 as [maxB1 B1 N1 arr1], t2 as [maxB2 B2 N2 arr2].
  intros (HB & HN & Harr). simpl in *. subst.
  unfold visited, lookup. simpl.
  destruct (decide (removeNonLetters q = [])); [done|].
  destruct (hash strhash B2 (std_sort (removeNonLetters q))) as [i|]; [|done].
  simpl. destruct (arr2 !! N.to_nat i) as [[chain|]|]; done.
Qed.

(** As long as twice the bucket count is below both maxima, [insert]
    does not depend on the maximum. *)
Lemma insert_same_buckets t1 t2 w t2' :
  same_buckets t1 t2 ->
  2 * m_B t2 < m_maxB t1 -> 2 * m_B t2 < m_maxB t2 ->
  insert strhash t2 w = Some t2' ->
  exists t1',
    insert strhash t1 w = Some t1' /\ same_buckets t1' t2' /\
    m_maxB t1' = m_maxB t1.
Proof.
  destruct t1 as [maxB1 B1 N1 arr1], t2 as [maxB2 B2 N2 arr2].
  intros (HB & HN & Harr) H1 H2. simpl in *. subst.
  unfold insert, tryRehash, increment_N. simpl.
  assert (uint32 (2 * B2) <= 2 * B2) as Hle
    by (unfold uint32; apply N.Div0.mod_le).
  assert ((B2 <? maxB1) = true) as -> by (apply N.ltb_lt; lia).
  assert ((B2 <? maxB2) = true) as -> by (apply N.ltb_lt; lia).
  assert ((uint32 (2 * B2) <? maxB1) = true) as -> by (apply N.ltb_lt; lia).
  assert ((uint32 (2 * B2) <? maxB2) = true) as -> by (apply N.ltb_lt; lia).
  simpl. destruct (load_factor_exceeded (uint32 (N2 + 1)) B2).
  - destruct (transfer strhash (uint32 (2 * B2)) (take (N.to_nat B2) arr2)
                (replicate (N.to_nat (uint32 (2 * B2))) None))
      as [newArr|]; [|done].
    simpl. unfold store. simpl.
    destruct (decide (removeNonLetters w = [])).
    + intros [= <-]. eexists. by split_and!.
    + destruct (hash strhash (uint32 (2 * B2)) (std_sort (removeNonLetters w)))
        as [i|]; [|done].
      simpl. destruct (push_back_at newArr i (removeNonLetters w)); [|done].
      simpl. intros [= <-]. eexists. by split_and!.
  - simpl. unfold store. simpl.
    destruct (decide (removeNonLetters w = [])).
    + intros [= <-]. eexists. by split_and!.
    + destruct (hash strhash B2 (std_sort (removeNonLetters w)))
        as [i|]; [|done].
      simpl. destruct (push_back_at arr2 i (removeNonLetters w)); [|done].
      simpl. intros [= <-]. eexists. by split_and!.
Qed.

Lemma insert_all_same_buckets t1 t2 ws t2' :
  wf strhash t2 -> same_buckets t1 t2 ->
  83886080 < m_maxB t1 -> 83886080 < m_maxB t2 ->
  on_schedule t2 -> m_B t2 < m_maxB t2 ->
  m_N t2 + N.of_nat (length ws) <= 29360128 ->
  insert_all strhash t2 ws = Some t2' ->
  exists t1',
    insert_all strhash t1 ws = Some t1' /\ same_buckets t1' t2' /\
    m_maxB t1' = m_maxB t1.
Proof.
  revert t1 t2. induction ws as [|w ws IH];
    intros t1 t2 Hwf Hsame Hmax1 Hmax2 Hon Hlt Hlen Hrun; simpl in Hrun.
  - injection Hrun as <-. by exists t1.
  - destruct (insert_spec strhash t2 w Hwf)
      as (t3 & Hrun3 & Hwf3 & HmaxB3 & _).
    rewrite Hrun3 in Hrun. simpl in Hrun. simpl length in Hlen.
    destruct Hon as (Hin & Hon2).
    destruct (bucket_counts_double _ Hin) as [Hb _].
    destruct (insert_same_buckets t1 t2 w t3 Hsame)
      as (t4 & Hrun4 & Hsame4 & HmaxB4); [lia|lia|done|].
    destruct (schedule_step strhash t2 w t3 Hwf (conj Hin Hon2) Hlt)
      as (_ & HN3 & Hon3 & Hlt3); [right; lia|done|].
    destruct Hlt3 as [Hlt3 _]; [lia|lia|].
    destruct (IH t4 t3) as (t1' & Hrun1 & Hsame1 & HmaxB1);
      [done|done|by rewrite HmaxB4|by rewrite HmaxB3|auto|done|lia|done|].
    exists t1'. simpl. rewrite Hrun4. simpl. split_and!; [done|done|congruence].
Qed.

(** X10. The constructor does not reject a negative [maxBuckets]: the
    conversion to [unsigned int] makes it the maximum 2^32 + maxBuckets,
    at least 2^31, and the table starts with 10 buckets. For the first
    29360128 inserts, at least, it then has the same buckets and counts
    as a table constructed with [INT_MAX], and [lookup] visits the stored
    forms of the inserted anagrams of the query in insertion order. *)
Theorem negative_max_buckets_is_accepted max_buckets ws :
  (- 2 ^ 31 <= max_buckets < 0)%Z ->
  N.of_nat (length ws) <= 29360128 ->
  exists t,
    insert_all strhash (DictionaryImpl_new max_buckets) ws = Some t /\
    m_maxB t = Z.to_N (2 ^ 32 + max_buckets) /\
    m_N t = N.of_nat (length ws) /\
    m_B t ∈ bucket_counts /\
    (exists t', built strhash INT_MAX ws t' /\ same_buckets t t') /\
    (forall q, visited strhash t q
               = Some (if decide (canonical q = []) then []
                       else removeNonLetters <$> anagrams q ws)).
Proof.
  intros Hmb Hlen.
  assert (1 <= INT_MAX <= INT_MAX)%Z as Hint by (unfold INT_MAX; lia).
  destruct (built_total strhash INT_MAX ws Hint) as [t' Hb].
  pose proof (DictionaryImpl_new_wf strhash INT_MAX Hint) as Hwf0.
  destruct (DictionaryImpl_new_fields INT_MAX Hint) as (HmaxB0 & HB0 & HN0).
  destruct (DictionaryImpl_new_on_schedule INT_MAX Hint) as [_ Hon0].
  assert (m_maxB (DictionaryImpl_new max_buckets)
          = Z.to_N (2 ^ 32 + max_buckets)) as HmaxB.
  { unfold DictionaryImpl_new. simpl.
    rewrite <- (Z.mod_add max_buckets 1 (2 ^ 32)) by lia.
    rewrite Z.mod_small by lia. f_equal. lia. }
  assert (m_B (DictionaryImpl_new max_buckets) = 10) as HB.
  { unfold DictionaryImpl_new in *. simpl in *. rewrite HmaxB.
    assert ((10 <? Z.to_N (2 ^ 32 + max_buckets)) = true) as ->; [|done].
    apply N.ltb_lt. lia. }
  assert (Z.to_N INT_MAX = 2147483647) as Hval by done.
  assert (same_buckets (DictionaryImpl_new max_buckets)
            (DictionaryImpl_new INT_MAX)) as Hsame.
  { unfold same_buckets. rewrite HB, HB0, HN0, Hval. split_and!; [done|done|].
    unfold DictionaryImpl_new in *. simpl in *. rewrite HmaxB.
    assert ((10 <? Z.to_N (2 ^ 32 + max_buckets)) = true) as ->
      by (apply N.ltb_lt; lia).
    done. }
  destruct Hb as [_ Hrun].
  assert (built strhash INT_MAX ws t') as Hb by done.
  destruct (insert_all_on_schedule strhash (DictionaryImpl_new INT_MAX) ws t')
    as (Hon' & _ & HN');
    [done|rewrite HmaxB0, Hval; lia|apply Hon0; lia|
     rewrite HmaxB0, HB0, Hval; lia|rewrite HN0; lia|done|].
  destruct (insert_all_same_buckets (DictionaryImpl_new max_buckets)
              (DictionaryImpl_new INT_MAX) ws t')
    as (t & Hrun1 & Hsame1 & HmaxB1);
    [done|done|rewrite HmaxB; lia|rewrite HmaxB0, Hval; lia|apply Hon0; lia|
     rewrite HmaxB0, HB0, Hval; lia|rewrite HN0; lia|done|].
  exists t. destruct Hsame1 as (HB1 & HN1 & Harr1).
  split_and!; [done|congruence|rewrite HN1, HN', HN0; lia| |by exists t'|].
  - rewrite HB1. apply Hon'.
  - intros q. rewrite (visited_same_buckets t t' q) by done.
    by apply (built_visited strhash INT_MAX).
Qed.

End NegativeMaximum.

(** ** Lists are allocated when the first word arrives *)

Section LazyLists.

Variable strhash : str -> N.

Lemma push_back_at_nonempty arr i w arr' :
  push_back_at arr i w = Some arr' ->
  Forall (λ slot, slot <> Some []) arr ->
  Forall (λ slot, slot <> Some []) arr'.
Proof.
  unfold push_back_at. intros Hrun Hall.
  destruct (arr !! N.to_nat i) as [slot|]; [|done].
  simpl in Hrun. injection Hrun as <-.
  apply Forall_insert; [done|]. intros [= Heq].
  by apply app_nil in Heq as [_ ?].
Qed.

Lemma transfer_chain_nonempty B chain arr arr' :
  transfer_chain strhash B chain arr = Some arr' ->
  Forall (λ slot, slot <> Some []) arr ->
  Forall (λ slot, slot <> Some []) arr'.
Proof.
  revert arr. induction chain as [|w chain IH]; intros arr Hrun Hall;
    simpl in Hrun.
  - by injection Hrun as <-.
  - unfold transfer_word in Hrun.
    destruct (hash strhash B (std_sort w)) as [i|]; [|done]. simpl in Hrun.
    destruct (push_back_at arr i w) as [arr1|] eqn:Hpush; [|done].
    simpl in Hrun. apply (IH arr1 Hrun).
    by apply (push_back_at_nonempty arr i w).
Qed.

Lemma transfer_nonempty B old arr arr' :
  transfer strhash B old arr = Some arr' ->
  Forall (λ slot, slot <> Some []) arr ->
  Forall (λ slot, slot <> Some []) arr'.
Proof.
  revert arr. induction old as [|slot old IH]; intros arr Hrun Hall;
    simpl in Hrun.
  - by injection Hrun as <-.
  - destruct slot as [chain|]; simpl in Hrun.
    + destruct (transfer_chain strhash B chain arr) as [arr1|] eqn:Hchain;
        [|done].
      simpl in Hrun. apply (IH arr1 Hrun).
      by apply (transfer_chain_nonempty B chain arr).
    + by apply (IH arr).
Qed.

Lemma insert_nonempty t w t' :
  insert strhash t w = Some t' ->
  Forall (λ slot, slot <> Some []) (m_words t) ->
  Forall (λ slot, slot <> Some []) (m_words t').
Proof.
  unfold insert. intros Hrun Hall.
  destruct (tryRehash strhash (increment_N t)) as [t1|] eqn:Hrun1; [|done].
  simpl in Hrun.
  assert (Forall (λ slot, slot <> Some []) (m_words t1)) as Hall1.
  { unfold tryRehash in Hrun1.
    destruct ((m_B (increment_N t) <? m_maxB (increment_N t))
              && load_factor_exceeded (m_N (increment_N t))
                   (m_B (increment_N t))); [|by injection Hrun1 as <-].
    cbv zeta in Hrun1.
    match type of Hrun1 with
    | (mbind _ ?x = _) => destruct x as [newArr|] eqn:Htr; [|done]
    end.
    simpl in Hrun1. injection Hrun1 as <-. simpl.
    apply (transfer_nonempty _ _ _ _ Htr), Forall_replicate. done. }
  unfold store in Hrun.
  destruct (decide (removeNonLetters w = [])); [by injection Hrun as <-|].
  destruct (hash strhash (m_B t1) (std_sort (removeNonLetters w)))
    as [i|]; [|done].
  simpl in Hrun.
  destruct (push_back_at (m_words t1) i (removeNonLetters w))
    as [arr|] eqn:Hpush; [|done].
  simpl in Hrun. injection Hrun as <-. simpl.
  by apply (push_back_at_nonempty (m_words t1) i (removeNonLetters w)).
Qed.

Lemma insert_all_nonempty t ws t' :
  insert_all strhash t ws = Some t' ->
  Forall (λ slot, slot <> Some []) (m_words t) ->
  Forall (λ slot, slot <> Some []) (m_words t').
Proof.
  revert t. induction ws as [|w ws IH]; intros t Hrun Hall; simpl in Hrun.
  - by injection Hrun as <-.
  - destruct (insert strhash t w) as [t1|] eqn:Hrun1; [|done].
    simpl in Hrun. apply (IH t1 Hrun). by apply (insert_nonempty t w).
Qed.

Lemma lists_at_most_words (arr : buckets) :
  Forall (λ slot, slot <> Some []) arr ->
  (length (omap id arr) <= length (all_words arr))%nat.
Proof.
  induction 1 as [|slot arr Hslot _ IH]; [done|].
  rewrite all_words_cons, length_app.
  destruct slot as [[|w chain]|]; [done| |]; cbn [omap list_omap id default length]; lia.
Qed.

(** X14. A [list<string>] is allocated only when a word is pushed into
    it, by [insert] and by [tryRehash] alike: in a built table a bucket
    pointer is non-null exactly when its chain holds at least one word.
    So there are never more lists than stored words, nor than [insert]
    calls, and the test [!m_words[bucket]] of [lookup] is the test for an
    empty bucket. *)
Theorem no_list_without_a_word max_buckets ws t :
  built strhash max_buckets ws t ->
  (forall i chain, m_words t !! i = Some (Some chain) -> chain <> []) /\
  (forall i, chain_at (m_words t) i = []
             <-> ~ exists chain, m_words t !! N.to_nat i = Some (Some chain)) /\
  (length (omap id (m_words t)) <= length (all_words (m_words t)))%nat /\
  (length (omap id (m_words t)) <= length ws)%nat.
Proof.
  intros Hb.
  assert (Forall (λ slot, slot <> Some []) (m_words t)) as Hall.
  { destruct Hb as [_ Hrun]. apply (insert_all_nonempty _ _ _ Hrun).
    unfold DictionaryImpl_new. simpl. by apply Forall_replicate. }
  assert (forall i chain, m_words t !! i = Some (Some chain) -> chain <> [])
    as Hne.
  { intros i chain Hi ->. rewrite Forall_lookup in Hall.
    by apply (Hall i _ Hi). }
  split_and!; [done| |by apply lists_at_most_words|].
  - intros i. unfold chain_at.
    destruct (m_words t !! N.to_nat i) as [[chain|]|] eqn:Hi.
    + split; [intros ->; by destruct (Hne _ _ Hi)|].
      intros Hno. destruct Hno. by exists chain.
    + split; [|done]. by intros _ [chain ?].
    + split; [|done]. by intros _ [chain ?].
  - etrans; [by apply lists_at_most_words|].
    rewrite (built_contents strhash _ _ _ Hb), bind_stored_form, length_fmap.
    apply length_filter.
Qed.

End LazyLists.

(** ** The free store *)

Section HeapIs.

Context {V : Type}.

Lemma heap_is_nil (h0 h : gmap loc V) : heap_is h0 [] h <-> h = h0.
Proof.
  unfold heap_is. simpl. rewrite (left_id_L ∅ (∪)). split.
  - by intros (_ & _ & ->).
  - intros ->. split_and!; [constructor| |done].
    intros l Hl. by apply not_elem_of_nil in Hl.
Qed.

Lemma heap_is_perm (h0 : gmap loc V) own own' h :
  own ≡ₚ own' -> heap_is h0 own h -> heap_is h0 own' h.
Proof.
  intros Hperm (Hnd & Hfresh & ->). split_and!.
  - by rewrite <- Hperm.
  - intros l Hl. apply Hfresh. by rewrite Hperm.
  - by rewrite (list_to_map_proper own own').
Qed.

Lemma heap_is_lookup (h0 : gmap loc V) own h l v :
  heap_is h0 own h -> (l, v) ∈ own -> h !! l = Some v.
Proof.
  intros (Hnd & _ & ->) Hin. apply lookup_union_Some_l.
  by apply elem_of_list_to_map_1.
Qed.

Lemma heap_is_alloc (h0 : gmap loc V) own h l v :
  heap_is h0 own h -> h !! l = None ->
  heap_is h0 ((l, v) :: own) (<[l := v]> h).
Proof.
  intros (Hnd & Hfresh & ->) Hl.
  apply lookup_union_None in Hl as [Hl1 Hl2].
  apply not_elem_of_list_to_map in Hl1.
  split_and!.
  - simpl. by constructor.
  - intros l' Hl'. simpl in Hl'. apply elem_of_cons in Hl' as [->|Hl']; auto.
  - by rewrite list_to_map_cons, insert_union_l.
Qed.

Lemma heap_is_update (h0 : gmap loc V) own h l v v' :
  heap_is h0 ((l, v) :: own) h ->
  heap_is h0 ((l, v') :: own) (<[l := v']> h).
Proof.
  intros (Hnd & Hfresh & ->). split_and!; [done|done|].
  by rewrite !list_to_map_cons, insert_union_l, insert_insert_eq.
Qed.

Lemma heap_is_delete (h0 : gmap loc V) own h l v :
  heap_is h0 ((l, v) :: own) h -> heap_is h0 own (delete l h).
Proof.
  intros (Hnd & Hfresh & ->). simpl in Hnd. apply NoDup_cons in Hnd as [Hl Hnd].
  split_and!; [done| |].
  - intros l' Hl'. apply Hfresh. simpl. by right.
  - rewrite list_to_map_cons, delete_union, delete_insert_eq.
    rewrite !delete_id; [done| |].
    + apply Hfresh. simpl. by left.
    + by apply not_elem_of_list_to_map.
Qed.

End HeapIs.

(** ** Bucket arrays in the store *)

Lemma slots_of_lookup (cs : cells) i :
  slots_of cs !! i = fmap (M:=option) fst <$> cs !! i.
Proof. apply list_lookup_fmap. Qed.

Lemma contents_lookup (cs : cells) i :
  contents cs !! i = fmap (M:=option) snd <$> cs !! i.
Proof. apply list_lookup_fmap. Qed.

Lemma slots_of_length (cs : cells) : length (slots_of cs) = length cs.
Proof. apply length_fmap. Qed.

Lemma contents_length (cs : cells) : length (contents cs) = length cs.
Proof. apply length_fmap. Qed.

(** The chains of an array, with the one of entry [i] in front. *)
Lemma chains_of_lookup (cs : cells) i c :
  cs !! i = Some c ->
  chains_of cs
  ≡ₚ option_list c
     ++ chains_of (take i cs) ++ chains_of (drop (S i) cs).
Proof.
  intros Hc. rewrite <- (take_drop_middle cs i c Hc) at 1.
  unfold chains_of. rewrite omap_app. simpl.
  destruct c as [c|]; simpl; [|done].
  by rewrite Permutation_middle.
Qed.

Lemma chains_of_insert (cs : cells) i c :
  (i < length cs)%nat ->
  chains_of (<[i := c]> cs)
  ≡ₚ option_list c
     ++ chains_of (take i cs) ++ chains_of (drop (S i) cs).
Proof.
  intros Hi. rewrite insert_take_drop by done.
  unfold chains_of. rewrite omap_app. simpl.
  destruct c as [c|]; simpl; [|done].
  by rewrite Permutation_middle.
Qed.

Lemma chains_of_drop (cs : cells) i c :
  cs !! i = Some c ->
  chains_of (drop i cs) = option_list c ++ chains_of (drop (S i) cs).
Proof.
  intros Hc. rewrite (drop_S _ _ _ Hc). unfold chains_of. simpl.
  by destruct c.
Qed.

Lemma chains_of_addresses (cs : cells) :
  (chains_of cs).*1 = omap id (slots_of cs).
Proof.
  unfold chains_of, slots_of.
  induction cs as [|[[l chain]|] cs IH]; csimpl; [done| |done].
  by rewrite IH.
Qed.

Lemma fresh_list (h : heap) : lists h !! fresh (dom (lists h)) = None.
Proof. apply not_elem_of_dom, is_fresh. Qed.

Lemma fresh_array (h : heap) : arrays h !! fresh (dom (arrays h)) = None.
Proof. apply not_elem_of_dom, is_fresh. Qed.

(** [push_back_mem] does to the store what [push_back_at] does to the
    bucket array. *)
Lemma push_back_mem_spec A0 L0 h a (cs : cells) arrs extra bucket word bs' :
  heap_is A0 ((a, slots_of cs) :: arrs) (arrays h) ->
  heap_is L0 (chains_of cs ++ extra) (lists h) ->
  push_back_at (contents cs) bucket word = Some bs' ->
  exists h' (cs' : cells),
    push_back_mem a bucket word h = Some h' /\
    heap_is A0 ((a, slots_of cs') :: arrs) (arrays h') /\
    heap_is L0 (chains_of cs' ++ extra) (lists h') /\
    contents cs' = bs' /\ impls h' = impls h.
Proof.
  intros HA HL Hpush. unfold push_back_at in Hpush.
  rewrite contents_lookup in Hpush.
  destruct (cs !! N.to_nat bucket) as [c|] eqn:Hc; [|done].
  simpl in Hpush. injection Hpush as <-.
  assert (N.to_nat bucket < length cs)%nat as Hi
    by (by apply lookup_lt_is_Some_1; rewrite Hc).
  unfold push_back_mem.
  rewrite (heap_is_lookup _ _ _ a (slots_of cs) HA) by (by left).
  simpl. rewrite slots_of_lookup, Hc. simpl.
  pose proof (chains_of_lookup cs _ c Hc) as Hsplit.
  destruct c as [[l chain]|]; simpl in *.
  - set (rest := chains_of (take (N.to_nat bucket) cs)
                 ++ chains_of (drop (S (N.to_nat bucket)) cs)) in *.
    assert (heap_is L0 ((l, chain) :: rest ++ extra) (lists h)) as HL1.
    { eapply heap_is_perm; [|exact HL]. by rewrite Hsplit. }
    rewrite (heap_is_lookup _ _ _ l chain HL1) by (by left). simpl.
    exists {| arrays := arrays h;
              lists := <[l := chain ++ [word]]> (lists h);
              impls := impls h |},
           (<[N.to_nat bucket := Some (l, chain ++ [word])]> cs).
    split_and!; [done| | | |done]; simpl.
    + unfold slots_of. rewrite list_fmap_insert. simpl.
      rewrite list_insert_id; [done|].
      by rewrite list_lookup_fmap, Hc.
    + eapply heap_is_perm; [|by eapply heap_is_update].
      rewrite chains_of_insert by done. done.
    + unfold contents. by rewrite list_fmap_insert.
  - set (l := fresh (dom (lists h))).
    rewrite lookup_insert_eq. simpl.
    exists {| arrays := <[a := <[N.to_nat bucket := Some l]> (slots_of cs)]>
                          (arrays h);
              lists := <[l := [word]]> (<[l := []]> (lists h));
              impls := impls h |},
           (<[N.to_nat bucket := Some (l, [word])]> cs).
    split_and!; [done| | | |done]; simpl.
    + replace (slots_of (<[N.to_nat bucket := Some (l, [word])]> cs))
        with (<[N.to_nat bucket := Some l]> (slots_of cs))
        by (unfold slots_of; by rewrite list_fmap_insert).
      by eapply heap_is_update.
    + rewrite insert_insert_eq.
      eapply heap_is_perm; [|apply heap_is_alloc; [exact HL|apply fresh_list]].
      rewrite chains_of_insert by done. simpl. by rewrite Hsplit.
    + unfold contents. by rewrite list_fmap_insert.
Qed.

Lemma chains_of_replicate n : chains_of (replicate n None) = [].
Proof. induction n as [|n IH]; [done|]. done. Qed.

Lemma slots_of_replicate n : slots_of (replicate n None) = replicate n None.
Proof. unfold slots_of. by rewrite fmap_replicate. Qed.

Lemma contents_replicate n : contents (replicate n None) = replicate n None.
Proof. unfold contents. by rewrite fmap_replicate. Qed.

Section Memory.

Variable strhash : str -> N.

Lemma transfer_chain_mem_spec A0 L0 B newArr chain h (cs : cells) arrs extra
    bs' :
  heap_is A0 ((newArr, slots_of cs) :: arrs) (arrays h) ->
  heap_is L0 (chains_of cs ++ extra) (lists h) ->
  transfer_chain strhash B chain (contents cs) = Some bs' ->
  exists h' (cs' : cells),
    transfer_chain_mem strhash B newArr chain h = Some h' /\
    heap_is A0 ((newArr, slots_of cs') :: arrs) (arrays h') /\
    heap_is L0 (chains_of cs' ++ extra) (lists h') /\
    contents cs' = bs' /\ impls h' = impls h.
Proof.
  revert h cs. induction chain as [|it chain IH]; intros h cs HA HL Hrun.
  - injection Hrun as <-. by exists h, cs.
  - simpl in *. unfold transfer_word in Hrun.
    destruct (hash strhash B (std_sort it)) as [bucket|]; [|done].
    simpl in *.
    destruct (push_back_at (contents cs) bucket it) as [bs1|] eqn:Hpush;
      [|done].
    simpl in Hrun.
    destruct (push_back_mem_spec _ _ _ _ _ _ _ _ _ _ HA HL Hpush)
      as (h1 & cs1 & -> & HA1 & HL1 & <- & Himpls1).
    simpl. rewrite <- Himpls1. by apply (IH h1 cs1).
Qed.

Lemma transfer_mem_spec A0 L0 B old newArr (ocs : cells) n i h (ncs : cells)
    bs' :
  (i + n = length ocs)%nat ->
  heap_is A0 [(newArr, slots_of ncs); (old, slots_of ocs)] (arrays h) ->
  heap_is L0 (chains_of ncs ++ chains_of (drop i ocs)) (lists h) ->
  transfer strhash B (contents (drop i ocs)) (contents ncs) = Some bs' ->
  exists h' (ncs' : cells),
    transfer_mem strhash B old newArr i n h = Some h' /\
    heap_is A0 [(newArr, slots_of ncs'); (old, slots_of ocs)] (arrays h') /\
    heap_is L0 (chains_of ncs') (lists h') /\
    contents ncs' = bs' /\ impls h' = impls h.
Proof.
  revert i h ncs. induction n as [|n IH]; intros i h ncs Hlen HA HL Hrun.
  - rewrite drop_ge in HL, Hrun by lia. change (chains_of []) with
      (@nil (loc * list str)) in HL. rewrite app_nil_r in HL.
    injection Hrun as <-. by exists h, ncs.
  - destruct (lookup_lt_is_Some_2 ocs i ltac:(lia)) as [c Hc].
    cbn [transfer_mem].
    rewrite (heap_is_lookup _ _ _ old (slots_of ocs) HA)
      by (right; by left).
    simpl. rewrite slots_of_lookup, Hc. simpl.
    rewrite (chains_of_drop _ _ _ Hc) in HL.
    rewrite (drop_S _ _ _ Hc) in Hrun.
    destruct c as [[l chain]|]; simpl in *.
    + rewrite (heap_is_lookup _ _ _ l chain HL)
        by (apply elem_of_app; right; by left).
      simpl.
      destruct (transfer_chain strhash B chain (contents ncs))
        as [bs1|] eqn:Hchain; [|done].
      simpl in Hrun.
      destruct (transfer_chain_mem_spec _ _ _ _ _ _ _ _ _ _ HA HL Hchain)
        as (h1 & ncs1 & -> & HA1 & HL1 & <- & Himpls1).
      simpl.
      rewrite (heap_is_lookup _ _ _ l chain HL1)
        by (apply elem_of_app; right; by left).
      simpl. rewrite <- Himpls1.
      apply (IH (S i) {| arrays := arrays h1; lists := delete l (lists h1);
                         impls := impls h1 |} ncs1); [lia|done| |done].
      simpl.
      eapply heap_is_delete, heap_is_perm; [|exact HL1].
      by rewrite <- Permutation_middle.
    + apply (IH (S i) h ncs); [lia|done|done|done].
Qed.

Lemma tryRehash_mem_spec h0 h d t t' :
  represents h0 h d t -> length (m_words t) = N.to_nat (m_B t) ->
  tryRehash strhash t = Some t' ->
  exists d' h',
    tryRehash_mem strhash d h = Some (d', h') /\ represents h0 h' d' t'.
Proof.
  intros (HmaxB & HB & HN & cs & Hwords & HA & HL & Himpls) Hlen Hrun.
  unfold tryRehash in Hrun. unfold tryRehash_mem. rewrite HmaxB, HB, HN.
  destruct ((m_B t <? m_maxB t) && load_factor_exceeded (m_N t) (m_B t)).
  - cbv zeta in Hrun.
    set (newB := if uint32 (2 * m_B t) <? m_maxB t then uint32 (2 * m_B t)
                 else m_maxB t) in *.
    rewrite take_ge in Hrun by lia. rewrite Hwords in Hrun.
    destruct (transfer strhash newB (contents cs)
                (replicate (N.to_nat newB) None)) as [bs'|] eqn:Htr; [|done].
    simpl in Hrun. injection Hrun as <-.
    unfold new_array. cbv zeta.
    set (a := fresh (dom (arrays h))).
    assert (length cs = N.to_nat (m_B t)) as Hlen'
      by (by rewrite <- Hlen, Hwords, contents_length).
    destruct (transfer_mem_spec (arrays h0) (lists h0) newB (p_words d) a cs
                (N.to_nat (m_B t)) 0
                {| arrays := <[a := replicate (N.to_nat newB) None]> (arrays h);
                   lists := lists h; impls := impls h |}
                (replicate (N.to_nat newB) None) bs')
      as (h2 & ncs & Hrun2 & HA2 & HL2 & Hcont & Himpls2).
    + lia.
    + simpl. rewrite slots_of_replicate.
      apply heap_is_alloc; [done|apply fresh_array].
    + simpl. by rewrite chains_of_replicate, drop_0.
    + by rewrite drop_0, contents_replicate.
    + rewrite Hrun2. simpl. unfold delete_array.
      rewrite (heap_is_lookup _ _ _ (p_words d) (slots_of cs) HA2)
        by (right; by left).
      eexists _, _. split; [done|]. unfold represents. simpl.
      split_and!; [done..|]. exists ncs.
      split_and!; [done| |done|by rewrite Himpls2].
      eapply heap_is_delete, heap_is_perm; [|exact HA2]. apply perm_swap.
  - injection Hrun as <-. exists d, h. split; [done|].
    unfold represents. split_and!; [done..|]. by exists cs.
Qed.

Lemma insert_mem_spec h0 h d t w t' :
  represents h0 h d t -> length (m_words t) = N.to_nat (m_B t) ->
  insert strhash t w = Some t' ->
  exists d' h',
    insert_mem strhash d w h = Some (d', h') /\ represents h0 h' d' t'.
Proof.
  intros Hrep Hlen Hrun. unfold insert in Hrun.
  destruct (tryRehash strhash (increment_N t)) as [t1|] eqn:Hrun1; [|done].
  simpl in Hrun.
  destruct (tryRehash_mem_spec h0 h
              {| p_maxB := p_maxB d; p_B := p_B d;
                 p_N := uint32 (p_N d + 1); p_words := p_words d |}
              (increment_N t) t1) as (d1 & h1 & Hmem1 & Hrep1); [|done|done|].
  { destruct Hrep as (HmaxB & HB & HN & cs & Hcs).
    unfold represents. simpl. rewrite HN. split_and!; [done..|]. by exists cs. }
  unfold insert_mem. rewrite Hmem1. simpl.
  unfold store in Hrun.
  destruct (decide (removeNonLetters w = [])) as [Hw|Hw].
  - injection Hrun as <-. by exists d1, h1.
  - destruct Hrep1 as (HmaxB & HB & HN & cs & Hwords & HA & HL & Himpls).
    rewrite HB.
    destruct (hash strhash (m_B t1) (std_sort (removeNonLetters w)))
      as [bucket|]; [|done].
    simpl in *. rewrite Hwords in Hrun.
    destruct (push_back_at (contents cs) bucket (removeNonLetters w))
      as [bs'|] eqn:Hpush; [|done].
    simpl in Hrun. injection Hrun as <-.
    destruct (push_back_mem_spec (arrays h0) (lists h0) h1 (p_words d1) cs []
                [] bucket (removeNonLetters w) bs')
      as (h2 & cs' & -> & HA2 & HL2 & <- & Himpls2);
      [done|by rewrite app_nil_r|done|].
    simpl. exists d1, h2. split; [done|].
    unfold represents. simpl. split_and!; [done..|].
    exists cs'. rewrite app_nil_r in HL2. split_and!; [done..|congruence].
Qed.

Lemma lookup_mem_spec {W : Type} h0 h d t q (callback : callback_t W) world :
  represents h0 h d t ->
  lookup_mem strhash d q callback world h
  = snd <$> lookup strhash t q callback world.
Proof.
  intros (HmaxB & HB & HN & cs & Hwords & HA & HL & _).
  unfold lookup_mem, lookup. destruct callback as [cb|]; [|done].
  destruct (decide (removeNonLetters q = [])); [done|].
  rewrite HB.
  destruct (hash strhash (m_B t) (std_sort (removeNonLetters q)))
    as [bucket|]; [|done].
  simpl. rewrite (heap_is_lookup _ _ _ (p_words d) (slots_of cs) HA)
    by (by left).
  simpl. rewrite Hwords, slots_of_lookup, contents_lookup.
  destruct (cs !! N.to_nat bucket) as [[[l chain]|]|] eqn:Hc; simpl; [|done..].
  rewrite (heap_is_lookup _ _ _ l chain HL); [done|].
  unfold chains_of. apply list_elem_of_omap. exists (Some (l, chain)).
  split; [|done]. by apply list_elem_of_lookup_2 with (N.to_nat bucket).
Qed.

Lemma delete_buckets_spec A0 L0 a (cs : cells) n i h :
  (i + n = length cs)%nat ->
  heap_is A0 [(a, slots_of cs)] (arrays h) ->
  heap_is L0 (chains_of (drop i cs)) (lists h) ->
  delete_buckets a i n h
  = Some {| arrays := arrays h; lists := L0; impls := impls h |}.
Proof.
  revert i h. induction n as [|n IH]; intros i h Hlen HA HL.
  - rewrite drop_ge in HL by lia. apply heap_is_nil in HL. simpl.
    destruct h. simpl in *. by subst.
  - destruct (lookup_lt_is_Some_2 cs i ltac:(lia)) as [c Hc].
    cbn [delete_buckets].
    rewrite (heap_is_lookup _ _ _ a (slots_of cs) HA) by (by left).
    simpl. rewrite slots_of_lookup, Hc. simpl.
    rewrite (chains_of_drop _ _ _ Hc) in HL.
    destruct c as [[l chain]|]; simpl in *.
    + rewrite (heap_is_lookup _ _ _ l chain HL) by (by left). simpl.
      rewrite (IH (S i)); [done|lia|done|]. simpl.
      by eapply heap_is_delete.
    + by apply IH; [lia|..].
Qed.

Lemma DictionaryImpl_delete_mem_spec h0 h d t :
  represents h0 h d t -> length (m_words t) = N.to_nat (m_B t) ->
  DictionaryImpl_delete_mem d h = Some h0.
Proof.
  intros (HmaxB & HB & HN & cs & Hwords & HA & HL & Himpls) Hlen.
  unfold DictionaryImpl_delete_mem.
  rewrite (delete_buckets_spec (arrays h0) (lists h0) _ cs); [|..|done| ].
  - simpl. unfold delete_array. simpl.
    rewrite (heap_is_lookup _ _ _ (p_words d) (slots_of cs) HA) by (by left).
    apply heap_is_delete, heap_is_nil in HA. rewrite HA, Himpls.
    by destruct h0.
  - rewrite HB, <- Hlen, Hwords, contents_length. lia.
  - by rewrite drop_0.
Qed.

Lemma DictionaryImpl_new_mem_spec h0 max_buckets :
  represents h0 (DictionaryImpl_new_mem max_buckets h0).2
    (DictionaryImpl_new_mem max_buckets h0).1
    (DictionaryImpl_new max_buckets).
Proof.
  unfold DictionaryImpl_new_mem, DictionaryImpl_new, new_array. cbv zeta.
  unfold represents. simpl. split_and!; [done..|].
  set (B := if 10 <? Z.to_N (max_buckets mod 2 ^ 32) then 10
            else Z.to_N (max_buckets mod 2 ^ 32)).
  exists (replicate (N.to_nat B) None).
  rewrite contents_replicate, slots_of_replicate, chains_of_replicate.
  split_and!; [done| |by apply heap_is_nil|done].
  apply heap_is_alloc; [by apply heap_is_nil|apply fresh_array].
Qed.

Lemma insert_all_mem_spec h0 h d t ws t' :
  represents h0 h d t -> wf strhash t ->
  insert_all strhash t ws = Some t' ->
  exists d' h',
    insert_all_mem strhash d ws h = Some (d', h') /\ represents h0 h' d' t'.
Proof.
  revert h d t. induction ws as [|w ws IH]; intros h d t Hrep Hwf Hrun.
  - injection Hrun as <-. by exists d, h.
  - simpl in Hrun.
    destruct (insert_spec strhash t w Hwf) as (t1 & Hrun1 & Hwf1 & _).
    rewrite Hrun1 in Hrun. simpl in Hrun.
    destruct (insert_mem_spec h0 h d t w t1 Hrep (wf_length _ _ Hwf) Hrun1)
      as (d1 & h1 & Hmem1 & Hrep1).
    simpl. rewrite Hmem1. simpl. by apply (IH h1 d1 t1).
Qed.

End Memory.

Section Program.

Variable strhash : str -> N.

Lemma represents_frame h0 h d t :
  represents h0 h d t ->
  arrays h0 !! p_words d = None /\ impls h = impls h0 /\
  exists slots, arrays h !! p_words d = Some slots.
Proof.
  intros (_ & _ & _ & cs & _ & HA & _ & Himpls). split_and!; [|done|].
  - destruct HA as (_ & Hfresh & _). apply Hfresh. simpl. by left.
  - exists (slots_of cs). apply (heap_is_lookup _ _ _ _ _ HA). by left.
Qed.

(** The run of a program on the store: the constructor, then [insert]
    calls. It succeeds, and the store holds the table that the calls
    build. *)
Lemma run_in_memory max_buckets ws h0 :
  (1 <= max_buckets <= INT_MAX)%Z ->
  exists t d h,
    built strhash max_buckets ws t /\
    insert_all_mem strhash (DictionaryImpl_new_mem max_buckets h0).1 ws
      (DictionaryImpl_new_mem max_buckets h0).2 = Some (d, h) /\
    represents h0 h d t.
Proof.
  intros Hmb. destruct (built_total strhash max_buckets ws Hmb) as [t Hb].
  pose proof (DictionaryImpl_new_mem_spec h0 max_buckets) as Hrep0.
  pose proof Hb as [_ Hrun].
  destruct (insert_all_mem_spec strhash h0 _ _ _ ws t Hrep0
              (DictionaryImpl_new_wf strhash _ Hmb) Hrun)
    as (d & h & Hmem & Hrep).
  by exists t, d, h.
Qed.

(** X11. The code with its pointers, allocations and deallocations does
    what the table model says. From any store, for a positive
    [maxBuckets] and any words: the constructor and the [insert] calls
    succeed on the store (no bucket index is out of range, no dead or
    null pointer is followed), and the store then holds, besides what it
    held before, exactly the bucket array and the chains of the table
    that the same calls build, each non-null bucket pointing to a list of
    its own. On that store [lookup] makes the calls of the model, and a
    further [insert] again leaves the store holding the table of the
    model, also when it rehashes into a new array. *)
Theorem table_in_memory_refines max_buckets ws h0 :
  (1 <= max_buckets <= INT_MAX)%Z ->
  exists t d h,
    built strhash max_buckets ws t /\
    insert_all_mem strhash (DictionaryImpl_new_mem max_buckets h0).1 ws
      (DictionaryImpl_new_mem max_buckets h0).2 = Some (d, h) /\
    represents h0 h d t /\
    (forall (W : Type) (callback : callback_t W) (world : W) q,
        lookup_mem strhash d q callback world h
        = snd <$> lookup strhash t q callback world) /\
    (forall w, exists t' d' h',
        insert strhash t w = Some t' /\
        insert_mem strhash d w h = Some (d', h') /\
        represents h0 h' d' t').
Proof.
  intros Hmb.
  destruct (run_in_memory max_buckets ws h0 Hmb)
    as (t & d & h & Hb & Hmem & Hrep).
  destruct (built_inv strhash _ _ _ Hb) as [Hwf _].
  exists t, d, h. split_and!; [done..| |].
  - intros W callback world q. by apply (lookup_mem_spec strhash h0).
  - intros w. destruct (insert_spec strhash t w Hwf) as (t' & Hrun & _).
    destruct (insert_mem_spec strhash h0 h d t w t' Hrep (wf_length _ _ Hwf)
                Hrun) as (d' & h' & Hmem' & Hrep').
    by exists t', d', h'.
Qed.

(** X12. No leak and no invalid [delete]: while the table is alive the
    store holds, besides what it held before the constructor, exactly one
    bucket array, of [m_B] entries, and exactly the lists that the
    non-null entries of that array point to, at distinct addresses:
    [tryRehash] has released every array and list it has replaced. The
    destructor then succeeds and leaves the store exactly as it was
    before the constructor. Running the destructor a second time is
    undefined: the bucket array is no longer alive. *)
Theorem destructor_releases_the_table max_buckets ws h0 :
  (1 <= max_buckets <= INT_MAX)%Z ->
  exists d h,
    insert_all_mem strhash (DictionaryImpl_new_mem max_buckets h0).1 ws
      (DictionaryImpl_new_mem max_buckets h0).2 = Some (d, h) /\
    (exists slots chains,
        arrays h = <[p_words d := slots]> (arrays h0) /\
        arrays h0 !! p_words d = None /\
        length slots = N.to_nat (p_B d) /\
        lists h = list_to_map chains ∪ lists h0 /\
        chains.*1 = omap id slots /\ NoDup chains.*1 /\
        (forall l, l ∈ chains.*1 -> lists h0 !! l = None)) /\
    impls h = impls h0 /\
    DictionaryImpl_delete_mem d h = Some h0 /\
    DictionaryImpl_delete_mem d h0 = None.
Proof.
  intros Hmb.
  destruct (run_in_memory max_buckets ws h0 Hmb)
    as (t & d & h & Hb & Hmem & Hrep).
  destruct (built_inv strhash _ _ _ Hb) as [Hwf _].
  exists d, h. destruct (represents_frame _ _ _ _ Hrep) as (Hfree & Himpls & _).
  split_and!; [done| |done| |].
  - destruct Hrep
      as (_ & HB & _ & cs & Hwords & (_ & _ & HA) & (Hnd & Hnew & HL) & _).
    exists (slots_of cs), (chains_of cs).
    split_and!; [|done| |done|apply chains_of_addresses|done|done].
    + rewrite HA. simpl. by rewrite <- insert_union_l, (left_id_L ∅ (∪)).
    + rewrite slots_of_length, <- contents_length, <- Hwords, HB.
      apply (wf_length _ _ Hwf).
  - apply (DictionaryImpl_delete_mem_spec h0 h d t Hrep (wf_length _ _ Hwf)).
  - destruct Hrep as (_ & HB & _).
    unfold DictionaryImpl_delete_mem. rewrite HB.
    pose proof (wf_B_pos _ _ Hwf) as Hpos.
    destruct (N.to_nat (m_B t)) as [|n] eqn:E; [lia|].
    simpl. by rewrite Hfree.
Qed.

Lemma Dictionary_new_mem_spec h0 maxBuckets :
  represents_Dictionary h0 (Dictionary_new_mem maxBuckets h0).2
    (Dictionary_new_mem maxBuckets h0).1 (DictionaryImpl_new maxBuckets).
Proof.
  pose proof (DictionaryImpl_new_mem_spec h0 maxBuckets) as Hrep.
  unfold Dictionary_new_mem.
  destruct (DictionaryImpl_new_mem maxBuckets h0) as [d h1] eqn:E.
  simpl in *. exists d.
  destruct Hrep as (HmaxB & HB & HN & cs & Hwords & HA & HL & Himpls).
  split.
  - rewrite Himpls. apply heap_is_alloc; [by apply heap_is_nil|].
    apply not_elem_of_dom, is_fresh.
  - unfold represents. simpl. split_and!; [done..|]. by exists cs.
Qed.

Lemma Dictionary_insert_mem_spec h0 h D t w t' :
  represents_Dictionary h0 h D t -> length (m_words t) = N.to_nat (m_B t) ->
  insert strhash t w = Some t' ->
  exists h',
    Dictionary_insert_mem strhash D w h = Some h' /\
    represents_Dictionary h0 h' D t'.
Proof.
  intros (d & HI & Hrep) Hlen Hrun.
  destruct (insert_mem_spec strhash _ h d t w t' Hrep Hlen Hrun)
    as (d' & h1 & Hmem & Hrep1).
  unfold Dictionary_insert_mem.
  rewrite (heap_is_lookup _ _ _ (p_impl D) d HI) by (by left).
  simpl. rewrite Hmem. simpl. eexists. split; [done|].
  exists d'. simpl.
  destruct Hrep1 as (HmaxB & HB & HN & cs & Hwords & HA & HL & Himpls).
  simpl in *. split.
  - rewrite Himpls. by eapply heap_is_update.
  - unfold represents. simpl. split_and!; [done..|]. by exists cs.
Qed.

Lemma Dictionary_insert_all_mem_spec h0 h D t ws t' :
  represents_Dictionary h0 h D t -> wf strhash t ->
  insert_all strhash t ws = Some t' ->
  exists h',
    Dictionary_insert_all_mem strhash D ws h = Some h' /\
    represents_Dictionary h0 h' D t'.
Proof.
  revert h t. induction ws as [|w ws IH]; intros h t Hrep Hwf Hrun.
  - injection Hrun as <-. by exists h.
  - simpl in Hrun.
    destruct (insert_spec strhash t w Hwf) as (t1 & Hrun1 & Hwf1 & _).
    rewrite Hrun1 in Hrun. simpl in Hrun.
    destruct (Dictionary_insert_mem_spec h0 h D t w t1 Hrep
                (wf_length _ _ Hwf) Hrun1) as (h1 & Hmem1 & Hrep1).
    simpl. rewrite Hmem1. simpl. by apply (IH h1 t1).
Qed.

(** X13. The same for the wrapper class on the store: from any store
    and for a positive [maxBuckets], [Dictionary::Dictionary], any
    [Dictionary::insert] calls, [Dictionary::lookup] with the answers of
    the model, and [Dictionary::~Dictionary], which releases the
    [DictionaryImpl] object with its array and lists and leaves the
    store exactly as it was; a second destruction is undefined. *)
Theorem Dictionary_in_memory maxBuckets ws h0 :
  (1 <= maxBuckets <= INT_MAX)%Z ->
  exists t h,
    built strhash maxBuckets ws t /\
    Dictionary_insert_all_mem strhash (Dictionary_new_mem maxBuckets h0).1 ws
      (Dictionary_new_mem maxBuckets h0).2 = Some h /\
    (forall (W : Type) (callback : callback_t W) (world : W) q,
        Dictionary_lookup_mem strhash (Dictionary_new_mem maxBuckets h0).1 q
          callback world h
        = snd <$> lookup strhash t q callback world) /\
    Dictionary_delete_mem (Dictionary_new_mem maxBuckets h0).1 h = Some h0 /\
    Dictionary_delete_mem (Dictionary_new_mem maxBuckets h0).1 h0 = None.
Proof.
  intros Hmb. destruct (built_total strhash maxBuckets ws Hmb) as [t Hb].
  pose proof (Dictionary_new_mem_spec h0 maxBuckets) as Hrep0.
  set (D := (Dictionary_new_mem maxBuckets h0).1) in *.
  set (h1 := (Dictionary_new_mem maxBuckets h0).2) in *. clearbody D h1.
  destruct Hb as [_ Hrun].
  destruct (Dictionary_insert_all_mem_spec h0 _ D _ ws t Hrep0
              (DictionaryImpl_new_wf strhash _ Hmb) Hrun) as (h & Hmem & Hrep).
  assert (built strhash maxBuckets ws t) as Hb by done.
  destruct (built_inv strhash _ _ _ Hb) as [Hwf _].
  exists t, h. destruct Hrep as (d & HI & Hrep).
  pose proof (heap_is_lookup _ _ _ (p_impl D) d HI ltac:(by left)) as Hd.
  split_and!; [done|done| | |].
  - intros W callback world q. unfold Dictionary_lookup_mem. rewrite Hd.
    simpl. by eapply lookup_mem_spec.
  - unfold Dictionary_delete_mem. rewrite Hd. simpl.
    rewrite (DictionaryImpl_delete_mem_spec _ h d t Hrep (wf_length _ _ Hwf)).
    simpl. apply heap_is_delete, heap_is_nil in HI. rewrite HI.
    by destruct h0.
  - unfold Dictionary_delete_mem.
    destruct HI as (_ & Hfresh & _). rewrite Hfresh; [done|]. simpl. by left.
Qed.

End Program.


(** ** Concrete runs *)

(** A run on the empty store: after nine inserts the table of at most 20
    buckets has grown once; four keys share three lists; one array is
    alive; the destructor empties the store. *)
Example memory_run :
  let '(d, h) := DictionaryImpl_new_mem 20 empty_heap in
  (h' ← insert_all_mem sample_hash d nine_words h;
   Some (p_B h'.1, size (lists h'.2), size (arrays h'.2),
         DictionaryImpl_delete_mem h'.1 h'.2))
  = Some (20, 3%nat, 1%nat, Some empty_heap).
Proof. vm_compute. reflexivity. Qed.

Lemma load_factor_is_maintained_witness :
  m_N seven_table = N.of_nat (length seven_words) /\
  10 * m_N seven_table <= 7 * m_B seven_table /\
  m_B seven_table ∈ bucket_counts /\
  (m_B seven_table = 10 \/ 7 * m_B seven_table < 20 * m_N seven_table) /\
  tryRehash sample_hash seven_table = Some seven_table.
Proof.
  apply (load_factor_is_maintained sample_hash 20 seven_words seven_table).
  - solve_built.
  - lia.
  - vm_compute. reflexivity.
Defined.

Lemma negative_max_buckets_is_accepted_witness :
  exists t,
    insert_all sample_hash (DictionaryImpl_new (-1)) scenario_words = Some t /\
    m_maxB t = Z.to_N (2 ^ 32 + -1) /\
    m_N t = N.of_nat (length scenario_words) /\
    m_B t ∈ bucket_counts /\
    (exists t', built sample_hash INT_MAX scenario_words t' /\
                same_buckets t t') /\
    (forall q, visited sample_hash t q
               = Some (if decide (canonical q = []) then []
                       else removeNonLetters <$> anagrams q scenario_words)).
Proof.
  apply (negative_max_buckets_is_accepted sample_hash (-1) scenario_words).
  - lia.
  - vm_compute. discriminate.
Defined.

Lemma insert_appends_to_its_key_witness :
  exists vs,
    visited sample_hash seven_table (lit "spot") = Some vs /\
    visited sample_hash eight_table (lit "spot")
    = Some (vs ++ if decide (canonical (lit "pots") = canonical (lit "spot")
                             /\ canonical (lit "spot") <> [])
                  then [removeNonLetters (lit "pots")] else []).
Proof.
  apply (insert_appends_to_its_key sample_hash 20 seven_words seven_table
           (lit "pots") eight_table (lit "spot")).
  - solve_built.
  - vm_compute. reflexivity.
Defined.

Lemma table_holds_what_was_inserted_witness :
  all_words (m_words nine_table)
  ≡ₚ removeNonLetters
       <$> filter (λ w, removeNonLetters w <> []) nine_words /\
  m_N nine_table = uint32 (N.of_nat (length nine_words)) /\
  (length (all_words (m_words nine_table)) <= length nine_words)%nat /\
  length (m_words nine_table) = N.to_nat (m_B nine_table) /\
  N.min 10 (Z.to_N 20) <= m_B nine_table <= Z.to_N 20.
Proof.
  apply (table_holds_what_was_inserted sample_hash 20 nine_words nine_table).
  solve_built.
Defined.

Lemma Dictionary_finds_anagrams_witness :
  exists d,
    Dictionary_insert_all sample_hash (Dictionary_new 10) scenario_words
    = Some d /\
    built sample_hash 10 scenario_words (m_impl d) /\
    (forall (W : Type) (cb : str -> W -> W) (world : W) q,
        Dictionary_lookup sample_hash d q (Some cb) world
        = Some (d, foldl (λ wd it, cb it wd) world
                     (if decide (canonical q = []) then []
                      else removeNonLetters <$> anagrams q scenario_words))) /\
    (forall d' w, Dictionary_insert sample_hash d w = Some d' ->
                  Dictionary_insert_all sample_hash (Dictionary_new 10)
                    (scenario_words ++ [w]) = Some d') /\
    (forall w, is_Some (Dictionary_insert sample_hash d w)).
Proof.
  apply (Dictionary_finds_anagrams sample_hash 10 scenario_words).
  unfold INT_MAX. lia.
Defined.

Lemma table_in_memory_refines_witness :
  exists t d h,
    built sample_hash 20 nine_words t /\
    insert_all_mem sample_hash (DictionaryImpl_new_mem 20 empty_heap).1
      nine_words (DictionaryImpl_new_mem 20 empty_heap).2 = Some (d, h) /\
    represents empty_heap h d t /\
    (forall (W : Type) (callback : callback_t W) (world : W) q,
        lookup_mem sample_hash d q callback world h
        = snd <$> lookup sample_hash t q callback world) /\
    (forall w, exists t' d' h',
        insert sample_hash t w = Some t' /\
        insert_mem sample_hash d w h = Some (d', h') /\
        represents empty_heap h' d' t').
Proof.
  apply (table_in_memory_refines sample_hash 20 nine_words empty_heap).
  unfold INT_MAX. lia.
Defined.

Lemma destructor_releases_the_table_witness :
  exists d h,
    insert_all_mem sample_hash (DictionaryImpl_new_mem 20 empty_heap).1
      nine_words (DictionaryImpl_new_mem 20 empty_heap).2 = Some (d, h) /\
    (exists slots chains,
        arrays h = <[p_words d := slots]> (arrays empty_heap) /\
        arrays empty_heap !! p_words d = None /\
        length slots = N.to_nat (p_B d) /\
        lists h = list_to_map chains ∪ lists empty_heap /\
        chains.*1 = omap id slots /\ NoDup chains.*1 /\
        (forall l, l ∈ chains.*1 -> lists empty_heap !! l = None)) /\
    impls h = impls empty_heap /\
    DictionaryImpl_delete_mem d h = Some empty_heap /\
    DictionaryImpl_delete_mem d empty_heap = None.
Proof.
  apply (destructor_releases_the_table sample_hash 20 nine_words empty_heap).
  unfold INT_MAX. lia.
Defined.

Lemma Dictionary_in_memory_witness :
  exists t h,
    built sample_hash 20 nine_words t /\
    Dictionary_insert_all_mem sample_hash
      (Dictionary_new_mem 20 empty_heap).1 nine_words
      (Dictionary_new_mem 20 empty_heap).2 = Some h /\
    (forall (W : Type) (callback : callback_t W) (world : W) q,
        Dictionary_lookup_mem sample_hash (Dictionary_new_mem 20 empty_heap).1
          q callback world h
        = snd <$> lookup sample_hash t q callback world) /\
    Dictionary_delete_mem (Dictionary_new_mem 20 empty_heap).1 h
    = Some empty_heap /\
    Dictionary_delete_mem (Dictionary_new_mem 20 empty_heap).1 empty_heap
    = None.
Proof.
  apply (Dictionary_in_memory sample_hash 20 nine_words empty_heap).
  unfold INT_MAX. lia.
Defined.

Lemma no_list_without_a_word_witness :
  (forall i chain, m_words nine_table !! i = Some (Some chain) -> chain <> []) /\
  (forall i, chain_at (m_words nine_table) i = []
             <-> ~ exists chain,
                     m_words nine_table !! N.to_nat i = Some (Some chain)) /\
  (length (omap id (m_words nine_table))
   <= length (all_words (m_words nine_table)))%nat /\
  (length (omap id (m_words nine_table)) <= length nine_words)%nat.
Proof.
  apply (no_list_without_a_word sample_hash 20 nine_words nine_table).
  solve_built.
Defined.
